(** * QRQUIZ: the multi-tenant quiz server (server.js), embedded and verified

    The development follows the latest variant of [server.js] (the one with a
    core user database and one lowdb store per tenant).  Handlers are
    synchronous (lowdb's FileSync adapter), so each request runs to completion
    before the next one starts: a handler is a function from the state before
    the request to a response and the state after it.

    Conventions of the embedding.  Identifiers, names, query parameters and
    cookies are strings, [None] standing for [undefined]; the points of an
    option, option indexes and times are integers ([Z]), as the admin pages
    send them; a score is a JavaScript number ([Js.Num], an IEEE 754 double)
    and is added to in double arithmetic; the collections of a store are
    lists in array order; an event's [teamIds] and [taskIds] are arrays of
    identifiers and a task's [options] an array of option objects, as the
    admin pages send them. *)

From Stdlib Require Import ZArith Ascii SpecFloat.
From stdpp Require Import base decidable option strings list gmap pretty relations.

Open Scope Z_scope.

(** ** JavaScript primitives used by the handlers *)

Module Js.

(** Strings are sequences of UTF-8 bytes.  [ws1], [ws2], [ws3] recognise the
    one-, two- and three-byte encodings of the characters that ECMAScript
    counts as white space or line terminators (TAB, LF, VT, FF, CR, SP,
    U+00A0, U+1680, U+2000..U+200A, U+2028, U+2029, U+202F, U+205F, U+3000,
    U+FEFF). *)
Definition code (a : ascii) : N := Ascii.N_of_ascii a.

Definition ws1 (a : ascii) : bool :=
  let n := code a in ((9 <=? n) && (n <=? 13) || (n =? 32))%N.

Definition ws2 (a b : ascii) : bool :=
  ((code a =? 194) && (code b =? 160))%N.

Definition ws3 (a b c : ascii) : bool :=
  let x := code a in let y := code b in let z := code c in
  ( (x =? 225) && (y =? 154) && (z =? 128)
  || (x =? 226) && (y =? 128)
     && ((128 <=? z) && (z <=? 138) || (z =? 168) || (z =? 169) || (z =? 175))
  || (x =? 226) && (y =? 129) && (z =? 159)
  || (x =? 227) && (y =? 128) && (z =? 128)
  || (x =? 239) && (y =? 187) && (z =? 191))%N.

(** [String.prototype.trimStart] *)
Fixpoint trimStart (s : string) : string :=
  match s with
  | String a s1 =>
      if ws1 a then trimStart s1 else
      match s1 with
      | String b s2 =>
          if ws2 a b then trimStart s2 else
          match s2 with
          | String c s3 => if ws3 a b c then trimStart s3 else s
          | EmptyString => s
          end
      | EmptyString => s
      end
  | EmptyString => s
  end.

(** [blank s]: [s] consists of white space only. *)
Fixpoint blank (s : string) : bool :=
  match s with
  | String a s1 =>
      if ws1 a then blank s1 else
      match s1 with
      | String b s2 =>
          if ws2 a b then blank s2 else
          match s2 with
          | String c s3 => ws3 a b c && blank s3
          | EmptyString => false
          end
      | EmptyString => false
      end
  | EmptyString => true
  end.

(** [String.prototype.trimEnd]: drop the longest blank suffix. *)
Fixpoint trimEnd (s : string) : string :=
  match s with
  | String a s1 => if blank s then EmptyString else String a (trimEnd s1)
  | EmptyString => EmptyString
  end.

(** [String.prototype.trim] *)
Definition trim (s : string) : string := trimEnd (trimStart s).

(** Truthiness of a string: only the empty string is falsy. *)
Definition truthy (s : string) : bool := negb (String.eqb s "").

(** [x || d] for a possibly undefined string [x]. *)
Definition or_else (x : option string) (d : string) : string :=
  match x with
  | Some s => if truthy s then s else d
  | None => d
  end.

(** [x || y] for two possibly undefined strings. *)
Definition or_ (x y : option string) : option string :=
  match x with
  | Some s => if truthy s then Some s else y
  | None => y
  end.

(** [x || null] for a possibly undefined string [x]. *)
Definition or_null (x : option string) : option string :=
  match x with
  | Some s => if truthy s then Some s else None
  | None => None
  end.

(** [String(x)] for a possibly undefined string. *)
Definition toString (x : option string) : string :=
  match x with
  | Some s => s
  | None => "undefined"
  end.

Definition digit (a : ascii) : option Z :=
  let n := code a in
  if ((48 <=? n) && (n <=? 57))%N then Some (Z.of_N n - 48) else None.

(** The longest prefix of decimal digits, most significant first. *)
Fixpoint digits (s : string) : list Z :=
  match s with
  | String a s' =>
      match digit a with
      | Some d => d :: digits s'
      | None => []
      end
  | EmptyString => []
  end.

Definition decimal (ds : list Z) : Z := foldl (fun acc d => 10 * acc + d) 0 ds.

(** [parseInt(x, 10)]: [None] is NaN.  Leading white space is skipped, one
    sign is read, then the longest run of decimal digits; whatever follows
    is ignored.  (Beyond 2^53 JavaScript rounds the value; the handlers use
    the result as an array index and as a loop bound only.) *)
Definition parseInt (x : option string) : option Z :=
  let s := trimStart (toString x) in
  let '(sign, rest) :=
    match s with
    | String "-"%char r => (-1, r)
    | String "+"%char r => (1, r)
    | _ => (1, s)
    end in
  match digits rest with
  | [] => None
  | ds => Some (sign * decimal ds)
  end.

(** [arr[i]] for an integer [i]: [undefined] outside [0 .. length-1]. *)
Definition index {A} (arr : list A) (i : Z) : option A :=
  if (0 <=? i) then arr !! Z.to_nat i else None.

(** [`${n}`] for an array length [n] (an integer below 2^32, printed in
    plain decimal). *)
Definition show (n : Z) : string := pretty n.

(** *** Numbers

    A JavaScript number is an IEEE 754 binary64 value.  [Fin m e] is the
    finite value m * 2^e written in lowest terms: [m] is odd, or [m] and [e]
    are both 0.  A double has at most 53 significant bits ([|m| < 2^53]),
    an exponent [e >= -1074] and a magnitude below 2^1024.  (The sign of
    zero is not kept: the handlers never produce or observe a negative
    zero.) *)
Inductive Num :=
| Fin (m e : Z)
| Inf (negative : bool)      (* Infinity, -Infinity *)
| NaN.

Fixpoint lowest (p : positive) (e : Z) : positive * Z :=
  match p with
  | xO q => lowest q (e + 1)
  | _ => (p, e)
  end.

(** m * 2^e in lowest terms. *)
Definition canon (m e : Z) : Num :=
  match m with
  | Z0 => Fin 0 0
  | Zpos p => let '(q, e') := lowest p e in Fin (Zpos q) e'
  | Zneg p => let '(q, e') := lowest p e in Fin (Zneg q) e'
  end.

(** a / 2^d for a natural number [a] and [d >= 1], rounded to the nearest
    integer, a tie going to the even one. *)
Definition nearest (a d : Z) : Z :=
  let q := Z.shiftr a d in
  let r := a - Z.shiftl q d in
  let half := Z.shiftl 1 (d - 1) in
  if (half <? r) || ((half =? r) && Z.odd q) then q + 1 else q.

(** The double nearest to m * 2^e (round to nearest, ties to even): the bits
    beyond the 53rd and those below 2^-1074 are rounded away, and a result
    of 2^1024 or more is an infinity. *)
Definition round (m e : Z) : Num :=
  let a := Z.abs m in
  let drop := Z.max (Z.log2 a + 1 - 53) (-1074 - e) in
  let '(q, e') := if 0 <? drop then (nearest a drop, e + drop) else (a, e) in
  if q =? 0 then Fin 0 0
  else if 1024 <? Z.log2 q + 1 + e' then Inf (m <? 0)
  else canon (Z.sgn m * q) e'.

(** [x + y] on numbers: the exact sum, rounded. *)
Definition add (x y : Num) : Num :=
  match x, y with
  | Fin m1 e1, Fin m2 e2 =>
      let e := Z.min e1 e2 in
      round (Z.shiftl m1 (e1 - e) + Z.shiftl m2 (e2 - e)) e
  | NaN, _ | _, NaN => NaN
  | Inf s, Inf t => if Bool.eqb s t then Inf s else NaN
  | Inf s, Fin _ _ | Fin _ _, Inf s => Inf s
  end.

(** The number an integer literal of a JSON document denotes. *)
Definition num (z : Z) : Num := round z 0.

(** [x || 0] for a number [x]: 0 and NaN are falsy. *)
Definition or_zero (x : Num) : Num :=
  match x with
  | NaN | Fin 0 _ => Fin 0 0
  | _ => x
  end.

(** The integer a number is equal to, if it is one. *)
Definition integer (x : Num) : option Z :=
  match x with
  | Fin m e => if 0 <=? e then Some (Z.shiftl m e) else None
  | _ => None
  end.

(** [Number::toString] for a positive integer-valued double [v].  [shortest]
    finds the decimal digits: the least number [k] of digits such that some
    [k]-digit [s] times a power of ten is read back as [v]; of two such [s]
    the one nearer to [v], the even one on a tie.  It returns [s] and the
    number of zeros that follow it. *)
Fixpoint shortest (fuel : nat) (k : Z) (v : Z) (len : Z) : Z * Z :=
  match fuel with
  | O => (v, 0)
  | S fuel' =>
      let p := 10 ^ (len - k) in
      let lo := v / p in
      let hi := lo + 1 in
      let reads (s : Z) := bool_decide (integer (num (s * p)) = Some v) in
      let dlo := v - lo * p in
      let dhi := hi * p - v in
      if reads lo && reads hi then
        if dlo <? dhi then (lo, len - k)
        else if dhi <? dlo then (hi, len - k)
        else if Z.even lo then (lo, len - k) else (hi, len - k)
      else if reads lo then (lo, len - k)
      else if reads hi then (hi, len - k)
      else shortest fuel' (k + 1) v len
  end.

Fixpoint strip_zeros (fuel : nat) (s : Z) : Z :=
  match fuel with
  | O => s
  | S fuel' =>
      if (s mod 10 =? 0) && negb (s =? 0) then strip_zeros fuel' (s / 10) else s
  end.

Definition zeros (n : Z) : string := String.concat "" (replicate (Z.to_nat n) "0").

(** Up to 21 digits the number is printed in full, beyond that as
    [d.ddde+n]. *)
Definition render (v : Z) : string :=
  let len := Z.of_nat (String.length (pretty v)) in
  let '(s, z) := shortest 17 1 v len in
  let n := Z.of_nat (String.length (pretty s)) + z in
  if n <=? 21 then pretty s +:+ zeros z
  else
    match pretty (strip_zeros 20 s) with
    | String d EmptyString => String d ("e+" +:+ pretty (n - 1))
    | String d rest => String d ("." +:+ rest +:+ "e+" +:+ pretty (n - 1))
    | EmptyString => EmptyString
    end.

(** [`${p}`] for the number that the integer literal [p] denotes. *)
Definition interpolate (p : Z) : string :=
  match num p with
  | NaN => "NaN"
  | Inf false => "Infinity"
  | Inf true => "-Infinity"
  | Fin m e =>
      let v := Z.shiftl m e in
      if v =? 0 then "0"
      else if v <? 0 then "-" +:+ render (- v)
      else render v
  end.

End Js.

(** An integer written where a number is expected stands for the number it
    denotes. *)
Coercion Js.num : Z >-> Js.Num.

(** A number as a value of the Standard Library's specification of IEEE 754
    arithmetic ([SpecFloat]); binary64 is the format of precision 53 and
    exponent bound 1024. *)
Definition binary64 (x : Js.Num) : spec_float :=
  match x with
  | Js.Fin m e => binary_normalize 53 1024 m e false
  | Js.Inf s => S754_infinity s
  | Js.NaN => S754_nan
  end.

(** [Js.add] and the IEEE 754 addition give the same double. *)
Definition add_agrees (x y : Js.Num) : Prop :=
  binary64 (Js.add x y) = SFadd 53 1024 (binary64 x) (binary64 y).

(** ** lodash collection operations, as lowdb exposes them *)

Module Lodash.
Section Collection.
Context {A : Type}.

(** [_.find(coll, pred)]: the first element that matches. *)
Definition find (p : A -> bool) (coll : list A) : option A := List.find p coll.

(** [_.remove(coll, pred)]: drops every element that matches. *)
Definition remove (p : A -> bool) (coll : list A) : list A :=
  List.filter (fun x => negb (p x)) coll.

(** [coll.push(x)] *)
Definition push (x : A) (coll : list A) : list A := coll ++ [x].

(** [_.chain(coll).find(pred).update(..)/.assign(..)]: the first element
    that matches is changed in place; when none matches lodash is handed
    [undefined] and changes nothing. *)
Fixpoint modify (p : A -> bool) (f : A -> A) (coll : list A) : list A :=
  match coll with
  | [] => []
  | x :: rest => if p x then f x :: rest else x :: modify p f rest
  end.

(** [coll.forEach(f)] where [f] mutates the collection it iterates over
    without adding or removing elements: the elements are visited in
    order, each visit acting on the collection as it then is. *)
Definition forEach (f : A -> list A -> list A) (coll : list A) : list A :=
  foldl (fun cur x => f x cur) coll coll.
End Collection.

(** [_.find(coll, { id })] where [id] may be undefined: identifiers are
    strings, so an undefined [id] matches nothing.  The identifier is
    returned with the element found. *)
Definition find_id {A} (same : string -> A -> bool) (coll : list A)
    (id : option string) : option (string * A) :=
  match id with
  | Some s => match List.find (same s) coll with
              | Some x => Some (s, x)
              | None => None
              end
  | None => None
  end.

(** [arr.includes(x)] on an array of strings. *)
Definition includes (arr : list string) (x : string) : bool :=
  bool_decide (x ∈ arr).

(** [Array.from(new Set(xs))]: first occurrences, in insertion order. *)
Definition uniq (xs : list string) : list string :=
  foldl (fun seen x => if bool_decide (x ∈ seen) then seen else seen ++ [x]) [] xs.
End Lodash.

(** ** Data model: the collections of one tenant store *)

Record Team := mkTeam { team_id : string; team_name : string; score : Js.Num }.

(** One answer option of a task.  The server reads only [points]; they are
    kept as the integer the admin page sent, which denotes the number
    [Js.num (points opt)]. *)
Record Choice := mkChoice { label : string; points : Z }.

Record Task := mkTask { task_id : string; title : string; options : list Choice }.

Record Event := mkEvent {
  event_id : string; event_name : string;
  teamIds : list string; taskIds : list string; created : Z }.

(** An element of the [records] collection: one answer of a team. *)
Record Answer := mkAnswer {
  rec_id : string; rec_teamId : string; rec_taskId : string;
  rec_optionIndex : Z; rec_points : Z; rec_eventId : option string;
  rec_time : Z }.

Inductive LogEntry :=
| LogJoin (id teamId : string) (eventId : option string) (time : Z)
| LogAnswer (id teamId taskId : string) (optionIndex pts : Z)
            (eventId : option string) (time : Z)
| LogBonus (id : string) (teamId : option string) (pts : Js.Num) (by_ : string)
           (time : Z).

Record Store := mkStore {
  teams : list Team; tasks : list Task; records : list Answer;
  events : list Event; logs : list LogEntry }.

(** [db.defaults({ teams: [], tasks: [], records: [], events: [], logs: [] })] *)
Definition defaults : Store := mkStore [] [] [] [] [].

Definition set_teams (db : Store) (x : list Team) : Store :=
  mkStore x (tasks db) (records db) (events db) (logs db).
Definition set_tasks (db : Store) (x : list Task) : Store :=
  mkStore (teams db) x (records db) (events db) (logs db).
Definition set_records (db : Store) (x : list Answer) : Store :=
  mkStore (teams db) (tasks db) x (events db) (logs db).
Definition set_events (db : Store) (x : list Event) : Store :=
  mkStore (teams db) (tasks db) (records db) x (logs db).
Definition set_logs (db : Store) (x : list LogEntry) : Store :=
  mkStore (teams db) (tasks db) (records db) (events db) x.

Definition set_score (f : Js.Num -> Js.Num) (t : Team) : Team :=
  mkTeam (team_id t) (team_name t) (f (score t)).

(** The predicates lodash builds from the object patterns [{ id }],
    [{ taskId }] and [{ teamId, taskId }]. *)
Definition team_is (id : string) (t : Team) : bool := bool_decide (team_id t = id).
Definition task_is (id : string) (t : Task) : bool := bool_decide (task_id t = id).
Definition event_is (id : string) (e : Event) : bool := bool_decide (event_id e = id).
Definition of_task (taskId : string) (r : Answer) : bool :=
  bool_decide (rec_taskId r = taskId).
Definition answer_of (teamId taskId : string) (r : Answer) : bool :=
  bool_decide (rec_teamId r = teamId) && bool_decide (rec_taskId r = taskId).

(** ** The process state: core users and the tenant stores *)

Inductive Role := Owner | Admin.
Record User := mkUser { username : string; role : Role }.

(** What a tenant name stands for: a store (the name's cache entry, or the
    content of its file [tenants/<name>.json] before the name is opened for
    the first time), or a file that the FileSync adapter fails to open, with
    the message of the error it throws ("Malformed JSON in file: ..." for a
    file that does not parse, the file system's message otherwise).  A name
    that stands for nothing has no file yet.

    Names are taken as file names, one file per name.  [getTenantDb] pastes
    the name into a path, so a name with path separators or dot segments
    can denote the file of another name; such aliases between names are not
    represented. *)
Inductive TenantFile := Db (s : Store) | Unreadable (message : string).

Record World := mkWorld { users : list User; tenants : gmap string TenantFile }.

Definition commit (safe : string) (db : Store) (w : World) : World :=
  mkWorld (users w) (<[safe := Db db]> (tenants w)).

Inductive Opened :=
| Handle (safe : string) (db : Store) (w : World)
| Throws (message : string).

(** [getTenantDb(tenant)]: the store cached or persisted under the trimmed
    key, created with the default collections when the name has no file
    yet. *)
Definition getTenantDb (w : World) (tenant : option string) : Opened :=
  let safe := Js.trim (Js.or_else tenant "") in
  if negb (Js.truthy safe) then Throws "Missing tenant" else
  match tenants w !! safe with
  | Some (Db db) => Handle safe db w
  | Some (Unreadable m) => Throws m
  | None => Handle safe defaults (commit safe defaults w)
  end.

(** ** Requests and responses *)

Record Request := mkRequest {
  query : gmap string string;       (* req.query *)
  cookies : gmap string string }.   (* req.cookies *)

(** The JSON bodies the server sends, one constructor per shape. *)
Inductive Body :=
| JOk                                        (* { ok: true } *)
| JError (message : string)                  (* { error } *)
| JId (id : string)                          (* { id } *)
| JTeams (created_teams : list (string * string))  (* { teams: [{ id, name }] } *)
| JEvent (ev : Event)                        (* { event: ev } *)
| JEvents (evs : list Event)                 (* { events } *)
| JEventInfo (ev : option (string * string)) (* { event: { id, name } } or { event: null } *)
| JScore (s : Js.Num) (name : string)        (* { score, name } *)
| JTask (task : Task)                        (* the task itself *)
| JState (ts : list Team) (ks : list Task).  (* { teams, tasks } *)

Inductive Response :=
| Send (status : nat) (text : string)       (* res.status(..).send(..) *)
| Redirect (location : string)              (* res.redirect(..) *)
| SendJson (status : nat) (body : Body)     (* res.status(..).json(..) *)
| Uncaught (message : string).              (* the handler threw: Express replies 500 *)

(** What a request draws from its surroundings: the successive results of
    [uuidv4()] and of [Date.now()] during that request. *)
Record Env := mkEnv { uuidv4 : nat -> string; now : nat -> Z }.

(** [resolveTenantFromReq(req)]: query [?t=], then the [tenant] cookie, then
    the [adminUser] cookie. *)
Definition resolveTenantFromReq (req : Request) : option string :=
  let q := Js.trim (Js.or_else (query req !! "t") "") in
  let fromQuery := Js.or_null (Some q) in
  let fromCookie :=
    Js.or_null (Some (Js.trim
      (Js.or_else (Js.or_ (cookies req !! "tenant") (cookies req !! "adminUser")) ""))) in
  Js.or_ fromQuery fromCookie.

(** ** Public game routes *)

(** The [if (eventId) { ... }] block of [/scan]: [Some r] when it returns the
    response [r], [None] when control falls through. *)
Definition event_gate (db : Store) (eventId : option string)
    (teamId taskId : string) : option Response :=
  match eventId with
  | Some eid =>
      match Lodash.find (event_is eid) (events db) with
      | None => Some (Send 400 "Ugyldigt event")
      | Some ev =>
          if negb (Lodash.includes (taskIds ev) taskId)
          then Some (Redirect "/joined.html?notinEvent=true")
          else if negb (Lodash.includes (teamIds ev) teamId)
          then Some (Send 403 "Hold ikke med i event")
          else None
      end
  | None => None
  end.

(** [GET /scan], from [const { taskId, optionIndex } = req.query] on. *)
Definition scan_db (env : Env) (req : Request) (db : Store) : Response * Store :=
  let optionIndex := query req !! "optionIndex" in
  let eventId := Js.or_null (cookies req !! "eventId") in
  match Js.or_null (cookies req !! "teamId") with
  | None => (Redirect "/join.html", db)
  | Some teamId =>
  match Lodash.find_id task_is (tasks db) (query req !! "taskId") with
  | None => (Send 400 "Ugyldig opgave", db)
  | Some (taskId, task) =>
  match event_gate db eventId teamId taskId with
  | Some early => (early, db)
  | None =>
  match Lodash.find (answer_of teamId taskId) (records db) with
  | Some _ => (Redirect "/joined.html?already=true", db)
  | None =>
  match Js.parseInt optionIndex with
  | None => (Send 400 "Ugyldig svar", db)        (* task.options[NaN] *)
  | Some idx =>
  match Js.index (options task) idx with
  | None => (Send 400 "Ugyldig svar", db)
  | Some opt =>
      let db1 := set_records db
        (Lodash.push (mkAnswer (uuidv4 env 0) teamId taskId idx (points opt)
                               eventId (now env 0)) (records db)) in
      let db2 := set_teams db1
        (Lodash.modify (team_is teamId) (set_score (fun n => Js.add n (points opt)))
                       (teams db1)) in
      let db3 := set_logs db2
        (Lodash.push (LogAnswer (uuidv4 env 1) teamId taskId idx (points opt)
                                eventId (now env 1)) (logs db2)) in
      (Redirect ("/joined.html?points=" +:+ Js.interpolate (points opt)), db3)
  end end end end end end.

(** [GET /scan] *)
Definition scan (env : Env) (req : Request) (w : World) : Response * World :=
  match resolveTenantFromReq req with
  | None => (Send 400 "Mangler tenant", w)
  | Some tenant =>
      match getTenantDb w (Some tenant) with
      | Throws m => (Uncaught m, w)
      | Handle safe db w1 =>
          let '(res, db') := scan_db env req db in (res, commit safe db' w1)
      end
  end.

(** [GET /join.html], from [const { teamId, eventId } = req.query] on.  The
    first component lists the cookies set. *)
Definition join_db (env : Env) (tenant : string) (req : Request) (db : Store)
    : list (string * string) * Response * Store :=
  match Lodash.find_id team_is (teams db) (query req !! "teamId") with
  | None => ([], Send 400 "Ugyldigt teamId", db)
  | Some (teamId, _) =>
      let eventId := Js.or_null (query req !! "eventId") in
      let accept (cookie : list (string * string)) :=
        (cookie ++ [("tenant", tenant); ("teamId", teamId)],
         Redirect "/joined.html",
         set_logs db (Lodash.push (LogJoin (uuidv4 env 0) teamId eventId (now env 0))
                                  (logs db))) in
      match eventId with
      | Some eid =>
          match Lodash.find (event_is eid) (events db) with
          | None => ([], Send 400 "Ugyldigt eventId", db)
          | Some ev =>
              if negb (Lodash.includes (teamIds ev) teamId)
              then ([], Send 403 "Hold ikke med i event", db)
              else accept [("eventId", eid)]
          end
      | None => accept []
      end
  end.

(** [GET /join.html] *)
Definition join (env : Env) (req : Request) (w : World)
    : list (string * string) * Response * World :=
  match resolveTenantFromReq req with
  | None => ([], Send 400 "Mangler tenant", w)
  | Some tenant =>
      match getTenantDb w (Some tenant) with
      | Throws m => ([], Uncaught m, w)
      | Handle safe db w1 =>
          let '(cookie, res, db') := join_db env tenant req db in
          (cookie, res, commit safe db' w1)
      end
  end.

(** [GET /api/task/:id] *)
Definition apiTask (id : string) (req : Request) (w : World) : Response * World :=
  match resolveTenantFromReq req with
  | None => (SendJson 400 (JError "Mangler tenant"), w)
  | Some tenant =>
      match getTenantDb w (Some tenant) with
      | Throws m => (Uncaught m, w)
      | Handle safe db w1 =>
          match Lodash.find (task_is id) (tasks db) with
          | None => (SendJson 404 (JError "Ikke fundet"), w1)
          | Some task => (SendJson 200 (JTask task), w1)
          end
      end
  end.

(** [GET /api/score] *)
Definition apiScore (req : Request) (w : World) : Response * World :=
  match resolveTenantFromReq req with
  | None => (SendJson 400 (JError "Mangler tenant"), w)
  | Some tenant =>
      match getTenantDb w (Some tenant) with
      | Throws m => (Uncaught m, w)
      | Handle safe db w1 =>
          match Js.or_null (cookies req !! "teamId") with
          | None => (SendJson 400 (JError "Ikke tilknyttet hold"), w1)
          | Some teamId =>
              match Lodash.find (team_is teamId) (teams db) with
              | None => (SendJson 404 (JError "Hold ikke fundet"), w1)
              | Some team => (SendJson 200 (JScore (score team) (team_name team)), w1)
              end
          end
      end
  end.

(** [GET /api/event]: the whole body sits in [try { ... } catch { ... }]. *)
Definition apiEvent (req : Request) (w : World) : Response * World :=
  match resolveTenantFromReq req with
  | None => (SendJson 200 (JEventInfo None), w)
  | Some tenant =>
      match getTenantDb w (Some tenant) with
      | Throws _ => (SendJson 200 (JEventInfo None), w)        (* catch *)
      | Handle safe db w1 =>
          match Js.or_null (cookies req !! "eventId") with
          | None => (SendJson 200 (JEventInfo None), w1)
          | Some eventId =>
              match Lodash.find (event_is eventId) (events db) with
              | None => (SendJson 200 (JEventInfo None), w1)
              | Some ev =>
                  (SendJson 200 (JEventInfo (Some (event_id ev, event_name ev))), w1)
              end
          end
      end
  end.

(** ** Admin routes (tenant-scoped) *)

(** [adminApi]: does the request carry the admin flag? *)
Definition adminApi (req : Request) : bool :=
  bool_decide (cookies req !! "admin" = Some "true").

(** [withTenantDb], followed by a handler working on [req.tenantDb]. *)
Definition withTenantDb (handler : Store -> Response * Store) (req : Request)
    (w : World) : Response * World :=
  match Js.or_null (Js.or_ (resolveTenantFromReq req) (cookies req !! "adminUser")) with
  | None => (SendJson 400 (JError "Mangler tenant"), w)
  | Some tenant =>
      match getTenantDb w (Some tenant) with
      | Throws m => (SendJson 400 (JError (Js.or_else (Some m) "Tenant fejl")), w)
      | Handle safe db w1 =>
          let '(res, db') := handler db in (res, commit safe db' w1)
      end
  end.

(** [app.use('/api/admin', adminApi, withTenantDb)] *)
Definition admin (handler : Store -> Response * Store) (req : Request) (w : World)
    : Response * World :=
  if adminApi req then withTenantDb handler req w
  else (SendJson 403 (JError "Ikke autoriseret"), w).

(** [POST /api/admin/tasks] *)
Definition createTask (env : Env) (title : string) (opts : list Choice) (db : Store)
    : Response * Store :=
  let id := uuidv4 env 0 in
  (SendJson 200 (JId id), set_tasks db (Lodash.push (mkTask id title opts) (tasks db))).

(** [DELETE /api/admin/tasks/:id] *)
Definition deleteTask (taskId : string) (db : Store) : Response * Store :=
  let db1 := set_tasks db (Lodash.remove (task_is taskId) (tasks db)) in
  let db2 := set_records db1 (Lodash.remove (of_task taskId) (records db1)) in
  (SendJson 200 JOk, db2).

(** The [for] loop of [POST /api/admin/teams/create]: [n] iterations are left,
    [i] is the loop counter (the i-th identifier is drawn), [out] is the
    [teams] array of the response. *)
Fixpoint createTeams_loop (env : Env) (n i : nat) (db : Store)
    (out : list (string * string)) : list (string * string) * Store :=
  match n with
  | O => (out, db)
  | S n' =>
      let id := uuidv4 env i in
      let name := "Hold " +:+ Js.show (Z.of_nat (length (teams db)) + 1) in
      createTeams_loop env n' (S i)
        (set_teams db (Lodash.push (mkTeam id name 0) (teams db)))
        (Lodash.push (id, name) out)
  end.

(** [parseInt(req.body.count, 10) || 1] *)
Definition team_count (count : option string) : Z :=
  match Js.parseInt count with
  | Some n => if n =? 0 then 1 else n
  | None => 1
  end.

(** [POST /api/admin/teams/create] *)
Definition createTeams (env : Env) (count : option string) (db : Store)
    : Response * Store :=
  let '(out, db') := createTeams_loop env (Z.to_nat (team_count count)) 0 db [] in
  (SendJson 200 (JTeams out), db').

(** [POST /api/admin/teams/reset] *)
Definition resetTeams (db : Store) : Response * Store :=
  (SendJson 200 JOk, set_records (set_teams db []) []).

(** [POST /api/admin/events] *)
Definition createEvent (env : Env) (name : option string)
    (teams_in tasks_in : option (list string)) (db : Store) : Response * Store :=
  match Js.or_null name with
  | None => (SendJson 400 (JError "Mangler navn"), db)
  | Some name =>
      let id := uuidv4 env 0 in
      (SendJson 200 (JId id),
       set_events db (Lodash.push
         (mkEvent id name (default [] teams_in) (default [] tasks_in) (now env 0))
         (events db)))
  end.

(** [GET /api/admin/events] *)
Definition listEvents (db : Store) : Response * Store :=
  (SendJson 200 (JEvents (events db)), db).

(** [GET /api/admin/events/:id] *)
Definition getEvent (id : string) (db : Store) : Response * Store :=
  match Lodash.find (event_is id) (events db) with
  | None => (SendJson 404 (JError "Event ikke fundet"), db)
  | Some ev => (SendJson 200 (JEvent ev), db)
  end.

(** [POST /api/admin/events/:id/append].  [addTeams] and [addTasks] are the
    body's [teamIds] and [taskIds] when they are arrays, [None] otherwise. *)
Definition appendEvent (id : string) (addTeams addTasks : option (list string))
    (db : Store) : Response * Store :=
  match Lodash.find (event_is id) (events db) with
  | None => (SendJson 404 (JError "Event ikke fundet"), db)
  | Some ev =>
      let next :=
        mkEvent (event_id ev) (event_name ev)
          (Lodash.uniq (teamIds ev ++ default [] addTeams))
          (Lodash.uniq (taskIds ev ++ default [] addTasks))
          (created ev) in
      (SendJson 200 (JEvent next),
       set_events db (Lodash.modify (event_is (event_id ev)) (fun _ => next) (events db)))
  end.

(** [POST /api/admin/logs/clear] *)
Definition clearLogs (db : Store) : Response * Store :=
  (SendJson 200 JOk, set_logs db []).

(** [POST /api/admin/reset] *)
Definition reset (db : Store) : Response * Store :=
  let db1 := set_records db [] in
  (SendJson 200 JOk,
   set_teams db1
     (Lodash.forEach
        (fun t ts => Lodash.modify (team_is (team_id t)) (set_score (fun _ => 0)) ts)
        (teams db1))).

(** [GET /api/admin/state] *)
Definition adminState (db : Store) : Response * Store :=
  (SendJson 200 (JState (teams db) (tasks db)), db).

(** [POST /api/admin/bonus].  [extra] is the number [Number(req.body.extra)];
    [us] is the core user collection. *)
Definition bonus (env : Env) (us : list User) (req : Request)
    (teamId : option string) (extra : Js.Num) (db : Store) : Response * Store :=
  let add := Js.or_zero extra in
  let db1 :=
    match teamId with
    | Some id => set_teams db
        (Lodash.modify (team_is id) (set_score (fun n => Js.add n add)) (teams db))
    | None => db
    end in
  let byUser :=
    Lodash.find_id (fun name u => bool_decide (username u = name)) us
                   (cookies req !! "adminUser") in
  let by_ := match byUser with Some (_, u) => username u | None => "admin" end in
  (SendJson 200 JOk,
   set_logs db1 (Lodash.push (LogBonus (uuidv4 env 0) teamId add by_ (now env 0))
                             (logs db1))).

(** ** The server as a transition system *)

(** The requests that reach a tenant store. *)
Inductive Call :=
| CJoin (env : Env) (req : Request)
| CScan (env : Env) (req : Request)
| CApiTask (id : string) (req : Request)
| CApiScore (req : Request)
| CApiEvent (req : Request)
| CCreateTask (env : Env) (req : Request) (title : string) (opts : list Choice)
| CDeleteTask (req : Request) (id : string)
| CCreateTeams (env : Env) (req : Request) (count : option string)
| CResetTeams (req : Request)
| CCreateEvent (env : Env) (req : Request) (name : option string)
               (teams_in tasks_in : option (list string))
| CListEvents (req : Request)
| CGetEvent (req : Request) (id : string)
| CAppendEvent (req : Request) (id : string) (addTeams addTasks : option (list string))
| CClearLogs (req : Request)
| CReset (req : Request)
| CAdminState (req : Request)
| CBonus (env : Env) (req : Request) (teamId : option string) (extra : Js.Num)
| CAdminView (req : Request) (view : Store -> Response).
  (* /api/admin/logs and /api/admin/backup: they read the store only *)

Definition serve (c : Call) (w : World) : Response * World :=
  match c with
  | CJoin env req => let '(_, res, w') := join env req w in (res, w')
  | CScan env req => scan env req w
  | CApiTask id req => apiTask id req w
  | CApiScore req => apiScore req w
  | CApiEvent req => apiEvent req w
  | CCreateTask env req title opts => admin (createTask env title opts) req w
  | CDeleteTask req id => admin (deleteTask id) req w
  | CCreateTeams env req count => admin (createTeams env count) req w
  | CResetTeams req => admin resetTeams req w
  | CCreateEvent env req name ts ks => admin (createEvent env name ts ks) req w
  | CListEvents req => admin listEvents req w
  | CGetEvent req id => admin (getEvent id) req w
  | CAppendEvent req id ts ks => admin (appendEvent id ts ks) req w
  | CClearLogs req => admin clearLogs req w
  | CReset req => admin reset req w
  | CAdminState req => admin adminState req w
  | CBonus env req teamId extra => admin (bonus env (users w) req teamId extra) req w
  | CAdminView req view => admin (fun db => (view db, db)) req w
  end.

(** One step of the server.  Setup, login and the master routes work on the
    core user collection; of the tenant stores they only make sure, through
    [getTenantDb(username)], that the one of [username] exists. *)
Inductive step : World -> World -> Prop :=
| step_serve c w : step w (serve c w).2
| step_auth name safe db w1 us w :
    getTenantDb w (Some name) = Handle safe db w1 ->
    step w (mkWorld us (tenants w1))
| step_users us w : step w (mkWorld us (tenants w)).

(** At most one answer per (team, task) pair in a store, and in every store. *)
Definition one_answer (db : Store) : Prop :=
  forall teamId taskId,
    (length (List.filter (answer_of teamId taskId) (records db)) <= 1)%nat.

Definition world_one_answer (w : World) : Prop :=
  forall tenant db, tenants w !! tenant = Some (Db db) -> one_answer db.

(** The score [/api/score] reports for a team id: that of the first team
    carrying the id, if there is one. *)
Definition team_score (db : Store) (teamId : string) : option Js.Num :=
  score <$> Lodash.find (team_is teamId) (teams db).

(** The store under a tenant key as [getTenantDb] hands it out. *)
Definition open_store (w : World) (safe : string) : Store :=
  match tenants w !! safe with
  | Some (Db db) => db
  | _ => defaults
  end.

(** The URL a successful scan redirects to. *)
Definition points_url (p : Z) : string := "/joined.html?points=" +:+ Js.interpolate p.

Definition sum_points (ps : list Z) : Z := foldr Z.add 0 ps.

(** The six checks of [/scan] written as one proposition. *)
Definition accepted (req : Request) (db : Store) (teamId taskId : string)
    (task : Task) (idx : Z) (opt : Choice) : Prop :=
  Js.or_null (cookies req !! "teamId") = Some teamId /\
  Lodash.find_id task_is (tasks db) (query req !! "taskId") = Some (taskId, task) /\
  event_gate db (Js.or_null (cookies req !! "eventId")) teamId taskId = None /\
  Lodash.find (answer_of teamId taskId) (records db) = None /\
  Js.parseInt (query req !! "optionIndex") = Some idx /\
  Js.index (options task) idx = Some opt.

(** A run of scans of one team, each of them passing all checks, with the
    points of the options chosen. *)
Inductive scans_ok (teamId : string) : Store -> list Z -> Store -> Prop :=
| scans_done db : scans_ok teamId db [] db
| scans_more env req db taskId task idx opt ps db2 :
    accepted req db teamId taskId task idx opt ->
    scans_ok teamId (scan_db env req db).2 ps db2 ->
    scans_ok teamId db (points opt :: ps) db2.

(** The integers that doubles count exactly: sums within this range are
    not rounded. *)
Definition in_range (z : Z) : Prop := Z.abs z <= 2 ^ 53.

(** Starting from [s], the points [ps] and every partial sum stay in that
    range. *)
Fixpoint sums_in_range (s : Z) (ps : list Z) : Prop :=
  match ps with
  | [] => True
  | p :: rest => in_range p /\ in_range (s + p) /\ sums_in_range (s + p) rest
  end.

(** The store a scan leaves behind once all checks have passed. *)
Definition scored (env : Env) (req : Request) (db : Store) (teamId taskId : string)
    (idx : Z) (opt : Choice) : Store :=
  let eventId := Js.or_null (cookies req !! "eventId") in
  mkStore
    (Lodash.modify (team_is teamId) (set_score (fun n => Js.add n (points opt)))
                   (teams db))
    (tasks db)
    (records db ++ [mkAnswer (uuidv4 env 0) teamId taskId idx (points opt) eventId (now env 0)])
    (events db)
    (logs db ++ [LogAnswer (uuidv4 env 1) teamId taskId idx (points opt) eventId (now env 1)]).

(** ** A small tenant, used to exercise the handlers

    Tenant "acme" has one task with the options A (10 points) and B (0
    points), a second task with one option worth -5, the team X with score 0
    and an event that lists team X but no task. *)
Definition demo_task : Task := mkTask "T" "Question" [mkChoice "A" 10; mkChoice "B" 0].
Definition demo_task2 : Task := mkTask "U" "Trap" [mkChoice "A" (-5)].
Definition demo_team : Team := mkTeam "X" "Hold 1" 0.
Definition demo_event : Event := mkEvent "E" "Final" ["X"] [] 0.
Definition demo_db : Store :=
  mkStore [demo_team] [demo_task; demo_task2] [] [demo_event] [].
Definition demo_env : Env := mkEnv (fun i => "id-" +:+ pretty i) (fun i => Z.of_nat i).
Definition demo_world : World := mkWorld [] {[ "acme" := Db demo_db ]}.

(** A scan of task [taskId] with option [optionIndex] in tenant "acme";
    [session] are the player's other cookies. *)
Definition demo_scan (session : list (string * string)) (taskId optionIndex : string)
    : Request :=
  mkRequest (list_to_map [("taskId", taskId); ("optionIndex", optionIndex)])
            (list_to_map (("tenant", "acme") :: session)).

(** The tenant after team X has answered task T with option A. *)
Definition demo_answered : Store :=
  mkStore [mkTeam "X" "Hold 1" 10] [demo_task; demo_task2]
          [mkAnswer "id-0" "X" "T" 0 10 None 0] [demo_event]
          [LogAnswer "id-1" "X" "T" 0 10 None 1].
Definition demo_answered_world : World := mkWorld [] {[ "acme" := Db demo_answered ]}.

(** A tenant whose team X has reached the score 2^53, with a task whose
    option is worth one point; and a tenant with a new team, a task whose
    option is worth 2^53 points and a task whose option is worth one. *)
Definition demo_high : Store :=
  mkStore [mkTeam "X" "Hold 1" (2 ^ 53)] [mkTask "T" "Question" [mkChoice "A" 1]]
          [] [] [].
Definition demo_steep : Store :=
  mkStore [mkTeam "X" "Hold 1" 0]
          [mkTask "T" "Jackpot" [mkChoice "A" (2 ^ 53)];
           mkTask "U" "Question" [mkChoice "A" 1]] [] [] [].

(** Team identifiers are pairwise distinct.  They are [uuidv4()] values, so
    every store the server has built has this property (see
    [createTeams_distinct], [serve_teams_distinct] and
    [reachable_teams_distinct]). *)
Definition teams_distinct (db : Store) : Prop := NoDup (team_id <$> teams db).

(** The name given to a team created when the store holds [k] teams. *)
Definition team_label (k : nat) : string := "Hold " +:+ Js.show (Z.of_nat k + 1).

(** The teams a batch of [n] adds to a store holding [k] teams, and the
    [teams] array of the reply. *)
Definition batch (env : Env) (k n : nat) : list Team :=
  (fun i => mkTeam (uuidv4 env i) (team_label (k + i)) 0) <$> seq 0 n.
Definition batch_reply (env : Env) (k n : nat) : list (string * string) :=
  (fun i => (uuidv4 env i, team_label (k + i))) <$> seq 0 n.

(** What a call does to the store of the tenant it addresses. *)
Definition effect (c : Call) (w : World) (db : Store) : Store :=
  match c with
  | CJoin env req => (join_db env (default "" (resolveTenantFromReq req)) req db).2
  | CScan env req => (scan_db env req db).2
  | CApiTask _ _ | CApiScore _ | CApiEvent _ => db
  | CCreateTask env _ title opts => (createTask env title opts db).2
  | CDeleteTask _ id => (deleteTask id db).2
  | CCreateTeams env _ count => (createTeams env count db).2
  | CResetTeams _ => (resetTeams db).2
  | CCreateEvent env _ name ts ks => (createEvent env name ts ks db).2
  | CListEvents _ => (listEvents db).2
  | CGetEvent _ id => (getEvent id db).2
  | CAppendEvent _ id ts ks => (appendEvent id ts ks db).2
  | CClearLogs _ => (clearLogs db).2
  | CReset _ => (reset db).2
  | CAdminState _ => (adminState db).2
  | CBonus env req teamId extra => (bonus env (users w) req teamId extra db).2
  | CAdminView _ _ => db
  end.

(** A world in which the file of tenant "acme" cannot be read. *)
Definition broken_world : World :=
  mkWorld [] {[ "acme" := Unreadable "Malformed JSON in file: tenants/acme.json" ]}.

(** A route either leaves the tenant stores alone or replaces the store of
    one tenant by the result of its handler. *)
Definition touches (f : Store -> Store) (w w' : World) : Prop :=
  tenants w' = tenants w \/
  exists safe, (forall m, tenants w !! safe <> Some (Unreadable m)) /\
               tenants w' = <[safe := Db (f (open_store w safe))]> (tenants w).

(** The [n] identifiers a batch draws are new: distinct from each other and
    from the ids of the teams in the store. *)
Definition fresh_ids (env : Env) (n : nat) (db : Store) : Prop :=
  NoDup (uuidv4 env <$> seq 0 n) /\
  forall i, (i < n)%nat -> uuidv4 env i ∉ team_id <$> teams db.

(** A call draws new identifiers for the teams it creates. *)
Definition fresh_call (c : Call) (w : World) : Prop :=
  forall env req count safe,
    c = CCreateTeams env req count ->
    fresh_ids env (Z.to_nat (team_count count)) (open_store w safe).

(** The steps of a server whose [uuidv4()] never repeats an identifier. *)
Inductive fresh_step : World -> World -> Prop :=
| fresh_serve c w : fresh_call c w -> fresh_step w (serve c w).2
| fresh_auth name safe db w1 us w :
    getTenantDb w (Some name) = Handle safe db w1 ->
    fresh_step w (mkWorld us (tenants w1))
| fresh_users us w : fresh_step w (mkWorld us (tenants w)).

(** ** Further definitions used by the properties of the remaining code *)

(** One leading white-space character removed, if there is one. *)
Definition strip1 (s : string) : option string :=
  match s with
  | String a s1 =>
      if Js.ws1 a then Some s1 else
      match s1 with
      | String b s2 =>
          if Js.ws2 a b then Some s2 else
          match s2 with
          | String c s3 => if Js.ws3 a b c then Some s3 else None
          | EmptyString => None
          end
      | EmptyString => None
      end
  | EmptyString => None
  end.

(** The conditions under which [/join.html] lets a device join: the team
    exists and, when the link names an event, the event exists and lists the
    team. *)
Definition admitted (req : Request) (db : Store) (teamId : string) : Prop :=
  query req !! "teamId" = Some teamId /\
  is_Some (Lodash.find (team_is teamId) (teams db)) /\
  match Js.or_null (query req !! "eventId") with
  | Some eid => exists ev, Lodash.find (event_is eid) (events db) = Some ev
                           /\ teamId ∈ teamIds ev
  | None => True
  end.

(** The cookies a successful join sets. *)
Definition join_cookies (tenant : string) (req : Request) (teamId : string)
    : list (string * string) :=
  match Js.or_null (query req !! "eventId") with
  | Some eid => [("eventId", eid)]
  | None => []
  end ++ [("tenant", tenant); ("teamId", teamId)].

(** A record refers to an existing task, to one of its options, and carries
    that option's points. *)
Definition record_sound (db : Store) (r : Answer) : Prop :=
  exists task opt,
    Lodash.find (task_is (rec_taskId r)) (tasks db) = Some task /\
    Js.index (options task) (rec_optionIndex r) = Some opt /\
    points opt = rec_points r.

(** A record made within an event refers to an existing event that lists
    both its task and its team. *)
Definition record_in_event (db : Store) (r : Answer) : Prop :=
  forall eid, rec_eventId r = Some eid ->
    exists ev, Lodash.find (event_is eid) (events db) = Some ev /\
               rec_taskId r ∈ taskIds ev /\ rec_teamId r ∈ teamIds ev.

Definition records_sound (db : Store) : Prop :=
  forall r, r ∈ records db -> record_sound db r.
Definition records_in_events (db : Store) : Prop :=
  forall r, r ∈ records db -> record_in_event db r.

(** The event [appendEvent] writes back for the event [ev]. *)
Definition appended (ev : Event) (addTeams addTasks : option (list string)) : Event :=
  mkEvent (event_id ev) (event_name ev)
    (Lodash.uniq (teamIds ev ++ default [] addTeams))
    (Lodash.uniq (taskIds ev ++ default [] addTasks))
    (created ev).

(** A property of stores holds in every tenant of a world. *)
Definition everywhere (I : Store -> Prop) (w : World) : Prop :=
  forall tenant db, tenants w !! tenant = Some (Db db) -> I db.




(** The calls whose handler forgets answers to the task [taskId]: the two
    resets and the deletion of that task. *)
Definition forgets (taskId : string) (c : Call) : bool :=
  match c with
  | CReset _ | CResetTeams _ => true
  | CDeleteTask _ id => bool_decide (id = taskId)
  | _ => false
  end.

(** [kept taskId db db']: the store [db'] comes from [db] by the handlers of
    calls that do not forget answers to [taskId]. *)
Inductive kept (taskId : string) : Store -> Store -> Prop :=
| kept_now db : kept taskId db db
| kept_call c w db db' :
    forgets taskId c = false -> kept taskId (effect c w db) db' -> kept taskId db db'.

(** A tenant like "acme" with a second event, which lists team X and
    task T. *)
Definition demo_semi : Event := mkEvent "G" "Semi" ["X"] ["T"] 0.
Definition demo_db_semi : Store :=
  mkStore [demo_team] [demo_task; demo_task2] [] [demo_event; demo_semi] [].
Definition demo_world_semi : World := mkWorld [] {[ "acme" := Db demo_db_semi ]}.


(** The teams of a store carry the names "Hold 1", "Hold 2", ... in order. *)
Definition teams_numbered (db : Store) : Prop :=
  team_name <$> teams db = team_label <$> seq 0 (length (teams db)).

(** The name under which a bonus is logged: the admin's user name when the
    core collection knows it, "admin" otherwise. *)
Definition bonus_by (us : list User) (req : Request) : string :=
  match cookies req !! "adminUser" with
  | Some name => if bool_decide (name ∈ username <$> us) then name else "admin"
  | None => "admin"
  end.

(** ** Accounts: first-time setup, login and the master routes

    The core database holds the accounts.  The password hash is
    [crypto.pbkdf2Sync(password, salt, 100000, 64, 'sha512')] in hexadecimal;
    it is a parameter [pbkdf2] of the definitions below, and the salt that
    [crypto.randomBytes] draws is an argument of the handlers. *)

Record Account := mkAccount {
  acc_id : string; acc_name : string; acc_salt : string; acc_hash : string;
  acc_role : Role; acc_created : Z }.

(** The part of an account the tenant routes look at. *)
Definition user_of (a : Account) : User := mkUser (acc_name a) (acc_role a).

(** The process state with the core collection [core]. *)
Definition with_core (core : list Account) (w : World) : World :=
  mkWorld (user_of <$> core) (tenants w).

Inductive CookieOp :=
| SetCookie (name value : string)     (* res.cookie(name, value, ..) *)
| ClearCookie (name : string).        (* res.clearCookie(name) *)

(** The three cookies of an admin session. *)
Definition session_cookies (username : string) : list CookieOp :=
  [SetCookie "admin" "true"; SetCookie "adminUser" username; SetCookie "tenant" username].

Inductive AuthBody :=
| AHasUsers (b : bool)                                   (* { hasUsers } *)
| AOk                                                    (* { ok: true } *)
| AError (message : string)                              (* { error } *)
| AMe (name : string) (r : Role)                         (* { username, role } *)
| AUsers (us : list (string * string * Role * Z)).       (* { users: [{ id, username, role, created }] } *)

Inductive AuthReply :=
| AJson (status : nat) (body : AuthBody)
| ARedirect (location : string)
| AUncaught (message : string).        (* the handler threw: Express replies 500 *)

Record AuthResult := mkAuthResult {
  cookie_ops : list CookieOp; reply : AuthReply;
  core_after : list Account; world_after : World }.

Definition account_is (name : string) (a : Account) : bool :=
  bool_decide (acc_name a = name).

Section Crypto.
Variable pbkdf2 : string -> string -> string.

(** [hashPassword(password, salt)] *)
Definition hashPassword (password salt : string) : string * string :=
  (salt, pbkdf2 password salt).

(** [verifyPassword(password, user)] *)
Definition verifyPassword (password : string) (user : Account) : bool :=
  String.eqb (pbkdf2 password (acc_salt user)) (acc_hash user).

(** [GET /api/auth/hasUsers] *)
Definition hasUsers (core : list Account) : AuthReply :=
  AJson 200 (AHasUsers (0 <? length core)%nat).

(** [POST /api/auth/setup] *)
Definition setup (env : Env) (salt : string) (username password : option string)
    (core : list Account) (w : World) : AuthResult :=
  if (0 <? length core)%nat
  then mkAuthResult [] (AJson 400 (AError "Allerede konfigureret")) core w else
  match Js.or_null username, Js.or_null password with
  | Some u, Some p =>
      let '(salt, hash) := hashPassword p salt in
      let core' :=
        Lodash.push (mkAccount (uuidv4 env 0) u salt hash Owner (now env 0)) core in
      match getTenantDb w (Some u) with
      | Throws m => mkAuthResult [] (AUncaught m) core' w
      | Handle _ _ w1 => mkAuthResult (session_cookies u) (AJson 200 AOk) core' w1
      end
  | _, _ => mkAuthResult [] (AJson 400 (AError "Manglende felter")) core w
  end.

(** [POST /login].  [pbkdf2Sync] throws when the password is not a string. *)
Definition login (username password : option string) (core : list Account) (w : World)
    : AuthResult :=
  match Lodash.find_id account_is core username with
  | None => mkAuthResult [] (ARedirect "/?error=1") core w
  | Some (u, user) =>
      match password with
      | None => mkAuthResult [] (AUncaught "ERR_INVALID_ARG_TYPE") core w
      | Some p =>
          if negb (verifyPassword p user)
          then mkAuthResult [] (ARedirect "/?error=1") core w else
          match getTenantDb w (Some u) with
          | Throws m => mkAuthResult [] (AUncaught m) core w
          | Handle _ _ w1 => mkAuthResult (session_cookies u) (ARedirect "/admin.html") core w1
          end
      end
  end.

(** [POST /logout] *)
Definition logout (core : list Account) (w : World) : AuthResult :=
  mkAuthResult [ClearCookie "admin"; ClearCookie "adminUser"; ClearCookie "tenant"]
               (ARedirect "/") core w.

(** [masterApi]: [Some r] when the middleware answers [r] itself, [None] when
    it calls [next()]. *)
Definition masterApi (req : Request) (core : list Account) : option AuthReply :=
  if negb (adminApi req) then Some (AJson 403 (AError "Ikke autoriseret")) else
  match Lodash.find_id account_is core (cookies req !! "adminUser") with
  | Some (_, user) =>
      match acc_role user with
      | Owner => None
      | Admin => Some (AJson 403 (AError "Kun master"))
      end
  | None => Some (AJson 403 (AError "Kun master"))
  end.

(** [GET /api/admin/me] *)
Definition adminMe (req : Request) (core : list Account) : AuthReply :=
  if negb (adminApi req) then AJson 403 (AError "Ikke autoriseret") else
  match Lodash.find_id account_is core (cookies req !! "adminUser") with
  | None => AJson 404 (AError "Bruger ikke fundet")
  | Some (_, user) => AJson 200 (AMe (acc_name user) (acc_role user))
  end.

(** [GET /api/master/users] *)
Definition masterUsers (req : Request) (core : list Account) : AuthReply :=
  match masterApi req core with
  | Some rejected => rejected
  | None =>
      AJson 200 (AUsers ((fun u => (acc_id u, acc_name u, acc_role u, acc_created u))
                           <$> core))
  end.

(** [POST /api/master/users] *)
Definition masterCreateUser (env : Env) (salt : string) (req : Request)
    (username password role_in : option string) (core : list Account) (w : World)
    : AuthResult :=
  match masterApi req core with
  | Some rejected => mkAuthResult [] rejected core w
  | None =>
      match Js.or_null username, Js.or_null password with
      | Some u, Some p =>
          match Lodash.find (account_is u) core with
          | Some _ => mkAuthResult [] (AJson 409 (AError "Brugernavn findes allerede")) core w
          | None =>
              let '(salt, hash) := hashPassword p salt in
              let r := if bool_decide (role_in = Some "owner") then Owner else Admin in
              let core' :=
                Lodash.push (mkAccount (uuidv4 env 0) u salt hash r (now env 0)) core in
              match getTenantDb w (Some u) with
              | Throws m => mkAuthResult [] (AUncaught m) core' w
              | Handle _ _ w1 => mkAuthResult [] (AJson 200 AOk) core' w1
              end
          end
      | _, _ => mkAuthResult [] (AJson 400 (AError "Manglende felter")) core w
      end
  end.

(** The account routes that can change the state. *)
Inductive AuthCall :=
| ASetup (env : Env) (salt : string) (username password : option string)
| ALogin (username password : option string)
| ALogout
| ACreateUser (env : Env) (salt : string) (req : Request)
              (username password role_in : option string).

Definition auth (c : AuthCall) (core : list Account) (w : World) : AuthResult :=
  match c with
  | ASetup env salt u p => setup env salt u p core w
  | ALogin u p => login u p core w
  | ALogout => logout core w
  | ACreateUser env salt req u p r => masterCreateUser env salt req u p r core w
  end.

End Crypto.

(** A stand-in for the password hash, used to run the account routes on
    examples. *)
Definition demo_hash (password salt : string) : string := salt +:+ "$" +:+ password.

(** * Properties *)

(** ** Collections *)

Section CollectionFacts.
Context {A : Type}.
Implicit Types (p q : A -> bool) (f : A -> A) (l : list A).

Lemma find_some_elem p l x : Lodash.find p l = Some x -> x ∈ l /\ p x = true.
Proof.
  unfold Lodash.find. intros H. apply List.find_some in H as [H1 H2].
  split; [by apply list_elem_of_In | done].
Qed.

Lemma find_none_elem p l x : Lodash.find p l = None -> x ∈ l -> p x = false.
Proof.
  unfold Lodash.find. intros H Hx. eapply List.find_none; [exact H|].
  by apply list_elem_of_In.
Qed.

Lemma find_is_some p l x : x ∈ l -> p x = true -> is_Some (Lodash.find p l).
Proof.
  intros Hx Hp. destruct (Lodash.find p l) eqn:E; [by eexists|].
  rewrite (find_none_elem _ _ _ E Hx) in Hp. done.
Qed.

Lemma modify_length p f l : length (Lodash.modify p f l) = length l.
Proof. induction l as [|x l IH]; simpl; [done|]. destruct (p x); simpl; congruence. Qed.

Lemma modify_none p f l : Lodash.find p l = None -> Lodash.modify p f l = l.
Proof.
  unfold Lodash.find. induction l as [|x l IH]; simpl; [done|].
  destruct (p x); [done|]. intros H. by rewrite IH.
Qed.

(** The element [find] returns is the one [modify] changes. *)
Lemma find_modify_same p f l :
  (forall x, p x = true -> p (f x) = true) ->
  Lodash.find p (Lodash.modify p f l) = f <$> Lodash.find p l.
Proof.
  intros Hf. unfold Lodash.find. induction l as [|x l IH]; simpl; [done|].
  destruct (p x) eqn:E; simpl.
  - by rewrite (Hf _ E).
  - by rewrite E.
Qed.

Lemma find_modify_other p q f l :
  (forall x, q (f x) = q x) -> (forall x, p x = true -> q x = false) ->
  Lodash.find q (Lodash.modify p f l) = Lodash.find q l.
Proof.
  intros Hf Hpq. unfold Lodash.find. induction l as [|x l IH]; simpl; [done|].
  destruct (p x) eqn:E; simpl.
  - by rewrite Hf, (Hpq _ E).
  - destruct (q x); [done | exact IH].
Qed.

Lemma modify_map {B} (g : A -> B) p f l :
  (forall x, g (f x) = g x) -> g <$> Lodash.modify p f l = g <$> l.
Proof.
  intros Hg. induction l as [|x l IH]; simpl; [done|].
  destruct (p x); simpl; [by rewrite Hg | by f_equal].
Qed.

Lemma remove_sublist p l : Lodash.remove p l `sublist_of` l.
Proof.
  unfold Lodash.remove. induction l as [|x l IH]; simpl; [constructor|].
  destruct (negb (p x)); by constructor.
Qed.

Lemma elem_of_remove p l x : x ∈ Lodash.remove p l <-> x ∈ l /\ p x = false.
Proof.
  unfold Lodash.remove. rewrite !list_elem_of_In, List.filter_In.
  by rewrite negb_true_iff.
Qed.

Lemma filter_sublist_length p l1 l2 :
  l1 `sublist_of` l2 ->
  (length (List.filter p l1) <= length (List.filter p l2))%nat.
Proof.
  induction 1 as [|x l1 l2 _ IH|x l1 l2 _ IH]; simpl; [done| |].
  - destruct (p x); simpl; lia.
  - destruct (p x); simpl; lia.
Qed.

Lemma filter_nil_of_find p l : Lodash.find p l = None -> List.filter p l = [].
Proof.
  unfold Lodash.find. induction l as [|x l IH]; simpl; [done|].
  destruct (p x); [done | exact IH].
Qed.
End CollectionFacts.

(** ** Numbers *)

Lemma lowest_spec p e q e' :
  Js.lowest p e = (q, e') -> e <= e' /\ Zpos p = Zpos q * 2 ^ (e' - e).
Proof.
  revert e. induction p as [p IH|p IH|]; intros e; simpl.
  - intros [= <- <-]. rewrite Z.sub_diag. split; [lia|]. simpl. lia.
  - intros H. apply IH in H as [H1 H2]. split; [lia|].
    replace (e' - e) with (Z.succ (e' - (e + 1))) by lia.
    rewrite Z.pow_succ_r by lia. lia.
  - intros [= <- <-]. rewrite Z.sub_diag. split; [lia|]. reflexivity.
Qed.

(** A number in lowest terms is an integer times a power of two. *)
Lemma canon_spec z m e : Js.canon z 0 = Js.Fin m e -> 0 <= e /\ z = m * 2 ^ e.
Proof.
  destruct z as [|p|p]; simpl.
  - intros [= <- <-]. split; [lia | reflexivity].
  - destruct (Js.lowest p 0) as [q e'] eqn:E. intros [= <- <-].
    apply lowest_spec in E as [H1 H2]. rewrite Z.sub_0_r in H2. done.
  - destruct (Js.lowest p 0) as [q e'] eqn:E. intros [= <- <-].
    apply lowest_spec in E as [H1 H2]. rewrite Z.sub_0_r in H2. split; [done|].
    change (Z.neg p) with (- Z.pos p). change (Z.neg q) with (- Z.pos q). lia.
Qed.

Lemma canon_double m e : Js.canon (2 * m) e = Js.canon m (e + 1).
Proof. by destruct m. Qed.

Lemma canon_pow m e j : 0 <= j -> Js.canon (m * 2 ^ j) e = Js.canon m (e + j).
Proof.
  intros Hj. revert e. pattern j. apply natlike_ind; [| |exact Hj].
  - intros e. by rewrite Z.mul_1_r, Z.add_0_r.
  - intros k Hk IH e. rewrite Z.pow_succ_r by done.
    replace (m * (2 * 2 ^ k)) with (2 * (m * 2 ^ k)) by lia.
    rewrite canon_double, IH. f_equal. lia.
Qed.

(** Rounding leaves alone what has at most 53 bits and does not overflow. *)
Lemma round_short m e :
  Z.abs m < 2 ^ 53 -> 0 <= e -> Z.abs m * 2 ^ e <= 2 ^ 53 -> Js.round m e = Js.canon m e.
Proof.
  intros Hm He Hv. unfold Js.round.
  assert (Z.log2 (Z.abs m) < 53) as Hlog.
  { destruct (Z.eq_dec m 0) as [->|Hne]; [done|]. apply Z.log2_lt_pow2; lia. }
  pose proof (Z.log2_nonneg (Z.abs m)) as Hnn.
  rewrite Z.max_l by lia.
  destruct (0 <? _) eqn:E; [apply Z.ltb_lt in E; lia|].
  destruct (Z.abs m =? 0) eqn:E0.
  { apply Z.eqb_eq in E0. by replace m with 0 by lia. }
  apply Z.eqb_neq in E0.
  assert (Z.log2 (Z.abs m) + e <= 53) as Hle.
  { assert (2 ^ Z.log2 (Z.abs m) <= Z.abs m) by (apply Z.log2_spec; lia).
    assert (2 ^ (Z.log2 (Z.abs m) + e) <= 2 ^ 53) as Hp.
    { rewrite Z.pow_add_r by (try apply Z.log2_nonneg; lia). nia. }
    apply Z.pow_le_mono_r_iff in Hp; lia. }
  destruct (1024 <? _) eqn:E1; [apply Z.ltb_lt in E1; lia|].
  f_equal. rewrite Z.mul_comm. apply Z.abs_sgn.
Qed.

Lemma num_canon z : in_range z -> Js.num z = Js.canon z 0.
Proof.
  unfold in_range, Js.num. intros Hz.
  destruct (Z.eq_dec (Z.abs z) (2 ^ 53)) as [E|E].
  - destruct (Z.abs_spec z) as [[_ H]|[_ H]]; rewrite H in E.
    + by rewrite E.
    + replace z with (- 2 ^ 53) by lia. reflexivity.
  - apply round_short; lia.
Qed.

(** Within the range that doubles count exactly, [Js.add] is the sum. *)
Lemma add_exact a b :
  in_range a -> in_range b -> in_range (a + b) -> Js.add (Js.num a) (Js.num b) = Js.num (a + b).
Proof.
  intros Ha Hb Hab. rewrite (num_canon a Ha), (num_canon b Hb).
  destruct (Js.canon a 0) as [ma ea| |] eqn:Ea; try (by destruct a; simpl in Ea; try destruct (Js.lowest _ _)).
  destruct (Js.canon b 0) as [mb eb| |] eqn:Eb; try (by destruct b; simpl in Eb; try destruct (Js.lowest _ _)).
  apply canon_spec in Ea as [Hea Eqa]. apply canon_spec in Eb as [Heb Eqb].
  unfold Js.add. set (e := Z.min ea eb).
  rewrite !Z.shiftl_mul_pow2 by lia.
  set (s := ma * 2 ^ (ea - e) + mb * 2 ^ (eb - e)).
  assert (0 <= e) as He by lia.
  assert (a + b = s * 2 ^ e) as Hs.
  { unfold s. rewrite Z.mul_add_distr_r, <- !Z.mul_assoc, <- !Z.pow_add_r by lia.
    replace (ea - e + e) with ea by lia. replace (eb - e + e) with eb by lia. lia. }
  destruct (Z.eq_dec e 0) as [E0|E0].
  - rewrite E0 in *. rewrite Z.mul_1_r in Hs. by rewrite Hs.
  - assert (2 <= 2 ^ e) as H2.
    { change 2 with (2 ^ 1) at 1. apply Z.pow_le_mono_r; lia. }
    unfold in_range in Hab. rewrite Hs, Z.abs_mul, (Z.abs_eq (2 ^ e)) in Hab by lia.
    rewrite round_short; [|nia|lia|lia].
    rewrite num_canon by (unfold in_range; rewrite Hs, Z.abs_mul, (Z.abs_eq (2 ^ e)); lia).
    rewrite Hs, canon_pow by lia. reflexivity.
Qed.

(** On sample operands [Js.add] is the IEEE 754 addition of binary64: exact
    sums, sums beyond 2^53 (rounded down, rounded up, ties to even),
    fractions, subnormal numbers, overflow to Infinity, infinities and
    NaN. *)
Example add_is_ieee :
  Forall (fun xy => add_agrees xy.1 xy.2)
    [ (Js.num 10, Js.num (-5)); (Js.num 1, Js.num (-1));
      (Js.num (2 ^ 53), Js.num 1); (Js.num (2 ^ 53), Js.num 2);
      (Js.num (2 ^ 53), Js.num 3); (Js.num (2 ^ 53 + 2), Js.num 1);
      (Js.num (2 ^ 53 + 2), Js.num 3); (Js.num (- 2 ^ 53), Js.num (-1));
      (Js.num (2 ^ 60), Js.num (2 ^ 7 + 1)); (Js.num (10 ^ 22), Js.num 1);
      (Js.Fin 1 (-1), Js.Fin 1 (-2)); (Js.Fin 3 (-1), Js.Fin 1 (-1));
      (Js.num (2 ^ 53), Js.Fin 1 (-1)); (Js.num 1, Js.Fin 1 (-53));
      (Js.num 1, Js.Fin 3 (-54)); (Js.Fin 1 (-1074), Js.Fin 1 (-1074));
      (Js.Fin 1 (-1074), Js.Fin (-1) (-1074)); (Js.Fin 1 (-1022), Js.Fin 1 (-1074));
      (Js.Fin (2 ^ 53 - 1) 971, Js.Fin 1 970); (Js.Fin (2 ^ 53 - 1) 971, Js.Fin 1 969);
      (Js.Fin (2 ^ 53 - 1) 971, Js.Fin (2 ^ 53 - 1) 971);
      (Js.Fin (- (2 ^ 53 - 1)) 971, Js.Fin (-1) 970);
      (Js.Inf false, Js.num 5); (Js.num 5, Js.Inf true);
      (Js.Inf false, Js.Inf false); (Js.Inf false, Js.Inf true);
      (Js.NaN, Js.num 1); (Js.Inf true, Js.NaN) ].
Proof. repeat constructor; vm_compute; reflexivity. Qed.

Example add_beyond_2_53 :
  Js.add (Js.num (2 ^ 53)) (Js.num 1) = Js.num (2 ^ 53) /\
  Js.add (Js.num (2 ^ 53)) (Js.num 2) = Js.num (2 ^ 53 + 2) /\
  Js.add (Js.num (2 ^ 53)) (Js.num 3) = Js.num (2 ^ 53 + 4) /\
  Js.num (10 ^ 400) = Js.Inf false.
Proof. repeat split; vm_compute; reflexivity. Qed.

(** [`${n}`] on sample numbers, as V8 prints them. *)
Example interpolate_samples :
  Js.interpolate <$>
    [0; 10; -5; 2 ^ 53; 2 ^ 53 + 1; 2 ^ 64; 123456789012345678;
     10 ^ 20; 10 ^ 21; 2 ^ 70; - 2 ^ 100; 10 ^ 400]
  = ["0"; "10"; "-5"; "9007199254740992"; "9007199254740992";
     "18446744073709552000"; "123456789012345680";
     "100000000000000000000"; "1e+21"; "1.1805916207174113e+21";
     "-1.2676506002282294e+30"; "Infinity"].
Proof. vm_compute. reflexivity. Qed.

(** ** The scan handler *)

Lemma redirect_not_points url p :
  url = "/join.html" \/ url = "/joined.html?notinEvent=true"
    \/ url = "/joined.html?already=true" ->
  Redirect url <> Redirect (points_url p).
Proof. unfold points_url. intros [-> | [-> | ->]]; simpl; discriminate. Qed.

Lemma scan_db_accepted env req db teamId taskId task idx opt :
  accepted req db teamId taskId task idx opt ->
  scan_db env req db =
    (Redirect (points_url (points opt)), scored env req db teamId taskId idx opt).
Proof.
  intros (Hteam & Htask & Hgate & Hrec & Hidx & Hopt).
  unfold scan_db. rewrite Hteam, Htask, Hgate, Hrec, Hidx, Hopt. reflexivity.
Qed.

(** Every run of [/scan] either passes all checks, or replies without
    touching the store and without reporting points. *)
Lemma scan_db_cases env req db :
  ((scan_db env req db).2 = db /\
   forall p, (scan_db env req db).1 <> Redirect (points_url p)) \/
  exists teamId taskId task idx opt, accepted req db teamId taskId task idx opt.
Proof.
  unfold scan_db, accepted.
  destruct (Js.or_null (cookies req !! "teamId")) as [teamId|] eqn:Hteam; simpl.
  2:{ left. split; [done|]. intros p. apply redirect_not_points. auto. }
  destruct (Lodash.find_id task_is (tasks db) (query req !! "taskId"))
    as [[taskId task]|] eqn:Htask; simpl.
  2:{ left. split; [done|]. discriminate. }
  destruct (event_gate db (Js.or_null (cookies req !! "eventId")) teamId taskId)
    as [early|] eqn:Hgate; simpl.
  { left. split; [done|]. intros p. revert Hgate. unfold event_gate.
    destruct (Js.or_null (cookies req !! "eventId")); [|done].
    destruct (Lodash.find _ _); [|intros [= <-]; discriminate].
    destruct (negb _); [intros [= <-]; apply redirect_not_points; auto|].
    destruct (negb _); [intros [= <-]; discriminate | done]. }
  destruct (Lodash.find (answer_of teamId taskId) (records db)) eqn:Hrec; simpl.
  { left. split; [done|]. intros p. apply redirect_not_points. auto. }
  destruct (Js.parseInt (query req !! "optionIndex")) as [idx|] eqn:Hidx; simpl.
  2:{ left. split; [done|]. discriminate. }
  destruct (Js.index (options task) idx) as [opt|] eqn:Hopt; simpl.
  2:{ left. split; [done|]. discriminate. }
  right. by exists teamId, taskId, task, idx, opt.
Qed.

Lemma team_is_set_score id f t : team_is id (set_score f t) = team_is id t.
Proof. reflexivity. Qed.

Lemma scored_team_score env req db teamId taskId idx opt :
  team_score (scored env req db teamId taskId idx opt) teamId
  = (fun n => Js.add n (points opt)) <$> team_score db teamId.
Proof.
  unfold team_score, scored; simpl.
  rewrite find_modify_same by (intros t; by rewrite team_is_set_score).
  by destruct (Lodash.find _ _).
Qed.

Lemma scored_team_score_other env req db teamId taskId idx opt other :
  other <> teamId ->
  team_score (scored env req db teamId taskId idx opt) other = team_score db other.
Proof.
  intros Hne. unfold team_score, scored; simpl.
  rewrite find_modify_other; [done | apply team_is_set_score |].
  intros t. unfold team_is. intros Ht%bool_decide_eq_true.
  apply bool_decide_eq_false. congruence.
Qed.

(** Within the range that doubles count exactly, an accepted scan adds
    the points themselves. *)
Lemma scored_team_score_exact env req db teamId taskId idx opt s :
  team_score db teamId = Some (Js.num s) ->
  in_range s -> in_range (points opt) -> in_range (s + points opt) ->
  team_score (scored env req db teamId taskId idx opt) teamId
  = Some (Js.num (s + points opt)).
Proof.
  intros Hs H1 H2 H3. rewrite scored_team_score, Hs. simpl.
  by rewrite add_exact.
Qed.

Lemma scans_ok_score teamId db ps db' s :
  scans_ok teamId db ps db' ->
  team_score db teamId = Some (Js.num s) -> in_range s -> sums_in_range s ps ->
  team_score db' teamId = Some (Js.num (s + sum_points ps)).
Proof.
  intros Hrun. revert s.
  induction Hrun as [db|env req db taskId task idx opt ps db2 Hacc _ IH];
    intros s Hs Hr Hsum.
  - simpl. by rewrite Z.add_0_r.
  - destruct Hsum as (Hp & Hsp & Hrest).
    rewrite (IH (s + points opt)); [simpl; do 2 f_equal; lia | | done | done].
    rewrite (scan_db_accepted env _ _ _ _ _ _ _ Hacc). simpl.
    by apply scored_team_score_exact.
Qed.

(** C3, as the code has it.  A scan that passes all checks (team session
    present, task exists, event checks pass, no prior record, option index
    valid) appends exactly one record carrying the chosen option's points,
    appends exactly one answer entry to the log, redirects with those
    points, and adds the points to the score of the team, and of no other,
    in JavaScript number arithmetic: the new score is the double nearest to
    the sum.  That is an increase by exactly those points (zero and negative
    ones included) whenever the score, the points and their sum are integers
    of magnitude at most 2^53.  Consequently, after a run of successful
    scans of one team and nothing else, the team's score is its initial
    score (0 for a new team) plus the sum of the points awarded, provided
    the points and every partial sum stay within that range. *)
Theorem scan_awards_points :
  (forall env req db teamId taskId task idx opt,
     accepted req db teamId taskId task idx opt ->
     exists db',
       scan_db env req db = (Redirect (points_url (points opt)), db') /\
       records db' = records db ++
         [mkAnswer (uuidv4 env 0) teamId taskId idx (points opt)
                   (Js.or_null (cookies req !! "eventId")) (now env 0)] /\
       logs db' = logs db ++
         [LogAnswer (uuidv4 env 1) teamId taskId idx (points opt)
                    (Js.or_null (cookies req !! "eventId")) (now env 1)] /\
       team_score db' teamId
         = (fun n => Js.add n (points opt)) <$> team_score db teamId /\
       (forall s, team_score db teamId = Some (Js.num s) ->
          in_range s -> in_range (points opt) -> in_range (s + points opt) ->
          team_score db' teamId = Some (Js.num (s + points opt))) /\
       (forall other, other <> teamId -> team_score db' other = team_score db other) /\
       team_id <$> teams db' = team_id <$> teams db /\
       team_name <$> teams db' = team_name <$> teams db /\
       tasks db' = tasks db /\ events db' = events db) /\
  (forall teamId db ps db' s,
     scans_ok teamId db ps db' ->
     team_score db teamId = Some (Js.num s) -> in_range s -> sums_in_range s ps ->
     team_score db' teamId = Some (Js.num (s + sum_points ps))).
Proof.
  split.
  - intros env req db teamId taskId task idx opt Hacc.
    exists (scored env req db teamId taskId idx opt).
    split; [exact (scan_db_accepted env _ _ _ _ _ _ _ Hacc)|].
    split; [done|]. split; [done|].
    split; [apply scored_team_score|].
    split; [intros s; apply scored_team_score_exact|].
    split; [intros other Hne; by apply scored_team_score_other|].
    unfold scored; simpl. by rewrite !modify_map.
  - intros teamId db ps db' s. apply scans_ok_score.
Qed.

Lemma scan_awards_points_witness :
  (exists db',
     scan_db demo_env (demo_scan [("teamId", "X")] "T" "0") demo_db
       = (Redirect "/joined.html?points=10", db') /\
     team_score db' "X" = Some (Js.num 10) /\ length (records db') = 1%nat) /\
  (exists db', scans_ok "X" demo_db [10; -5] db' /\
               team_score db' "X" = Some (Js.num 5)).
Proof.
  destruct scan_awards_points as [Hone Hmany]. split.
  - destruct (Hone demo_env (demo_scan [("teamId", "X")] "T" "0") demo_db
                "X" "T" demo_task 0 (mkChoice "A" 10))
      as (db' & Hres & Hrec & _ & _ & Hscore & _).
    + unfold accepted. vm_compute. repeat split; reflexivity.
    + exists db'. split; [exact Hres|]. split.
      * apply (Hscore 0); [reflexivity | | |]; unfold in_range; simpl; lia.
      * rewrite Hrec. reflexivity.
  - set (r1 := demo_scan [("teamId", "X")] "T" "0").
    set (r2 := demo_scan [("teamId", "X")] "U" "0").
    set (db1 := (scan_db demo_env r1 demo_db).2).
    set (db2 := (scan_db demo_env r2 db1).2).
    assert (scans_ok "X" demo_db [10; -5] db2) as Hrun.
    { apply (scans_more "X" demo_env r1 demo_db "T" demo_task 0 (mkChoice "A" 10)
               [-5] db2); [unfold accepted; vm_compute; repeat split; reflexivity|].
      apply (scans_more "X" demo_env r2 db1 "U" demo_task2 0 (mkChoice "A" (-5))
               [] db2); [unfold accepted; vm_compute; repeat split; reflexivity|].
      apply scans_done. }
    exists db2. split; [exact Hrun|].
    apply (Hmany "X" demo_db [10; -5] db2 0 Hrun); [reflexivity | |].
    + unfold in_range; simpl; lia.
    + simpl; unfold in_range; simpl; lia.
Defined.

(** C3 as stated fails beyond 2^53.  Team X has the score 2^53 and scans an
    option worth one point: the scan passes all checks, and the score after
    it is the score before it.  And a new team that scans an option worth
    2^53 points and then one worth 1 point ends with the score 2^53, not
    with the sum 2^53 + 1 of the points awarded. *)
Lemma scan_awards_points_counterexample :
  (accepted (demo_scan [("teamId", "X")] "T" "0") demo_high "X" "T"
            (mkTask "T" "Question" [mkChoice "A" 1]) 0 (mkChoice "A" 1) /\
   team_score demo_high "X" ≫= Js.integer = Some (2 ^ 53) /\
   team_score (scan_db demo_env (demo_scan [("teamId", "X")] "T" "0") demo_high).2 "X"
     ≫= Js.integer = Some (2 ^ 53)) /\
  (exists db',
     scans_ok "X" demo_steep [2 ^ 53; 1] db' /\
     team_score demo_steep "X" = Some (Js.num 0) /\
     team_score db' "X" ≫= Js.integer = Some (2 ^ 53) /\
     0 + sum_points [2 ^ 53; 1] = 2 ^ 53 + 1).
Proof.
  split.
  - split; [unfold accepted; vm_compute; repeat split; reflexivity|].
    split; vm_compute; reflexivity.
  - exists (scan_db demo_env (demo_scan [("teamId", "X")] "U" "0")
              (scan_db demo_env (demo_scan [("teamId", "X")] "T" "0") demo_steep).2).2.
    split.
    { apply (scans_more "X" demo_env (demo_scan [("teamId", "X")] "T" "0") demo_steep
               "T" (mkTask "T" "Jackpot" [mkChoice "A" (2 ^ 53)]) 0
               (mkChoice "A" (2 ^ 53)));
        [unfold accepted; vm_compute; repeat split; reflexivity|].
      apply (scans_more "X" demo_env (demo_scan [("teamId", "X")] "U" "0") _
               "U" (mkTask "U" "Question" [mkChoice "A" 1]) 0 (mkChoice "A" 1));
        [unfold accepted; vm_compute; repeat split; reflexivity|].
      apply scans_done. }
    split; [reflexivity|]. split; vm_compute; reflexivity.
Qed.

(** C10.  The scan handler never checks that the teamId cookie names an
    existing team: when no team carries the id and the request passes the
    checks (valid task, event checks, no prior record, valid option index),
    the scan still succeeds.  It stores a record and an answer log entry
    for the unknown team and reports the points; the team collection, and so
    every score, stays as it was, and [/api/score] still finds no team. *)
Theorem scan_unknown_team env req db teamId taskId task idx opt :
  accepted req db teamId taskId task idx opt ->
  Lodash.find (team_is teamId) (teams db) = None ->
  scan_db env req db =
    (Redirect (points_url (points opt)),
     mkStore (teams db) (tasks db)
       (records db ++ [mkAnswer (uuidv4 env 0) teamId taskId idx (points opt)
                                (Js.or_null (cookies req !! "eventId")) (now env 0)])
       (events db)
       (logs db ++ [LogAnswer (uuidv4 env 1) teamId taskId idx (points opt)
                              (Js.or_null (cookies req !! "eventId")) (now env 1)]))
  /\ team_score (scan_db env req db).2 teamId = None.
Proof.
  intros Hacc Hnone. rewrite (scan_db_accepted env _ _ _ _ _ _ _ Hacc).
  unfold scored, team_score; simpl. rewrite (modify_none _ _ _ Hnone).
  split; [done|]. by rewrite Hnone.
Qed.

Lemma scan_unknown_team_witness :
  scan_db demo_env (demo_scan [("teamId", "ghost")] "T" "0") demo_db =
    (Redirect "/joined.html?points=10",
     mkStore [demo_team] [demo_task; demo_task2]
       [mkAnswer "id-0" "ghost" "T" 0 10 None 0] [demo_event]
       [LogAnswer "id-1" "ghost" "T" 0 10 None 1]).
Proof.
  refine (proj1 (scan_unknown_team demo_env (demo_scan [("teamId", "ghost")] "T" "0")
            demo_db "ghost" "T" demo_task 0 (mkChoice "A" 10) _ _)).
  - unfold accepted. vm_compute. repeat split; reflexivity.
  - vm_compute. reflexivity.
Defined.

(** ** Checks that come before the duplicate check *)

(** Whatever the reply, a scan for a pair that already has a record leaves
    the store alone. *)
Lemma scan_db_answered_frame env req db teamId taskId r :
  Js.or_null (cookies req !! "teamId") = Some teamId ->
  query req !! "taskId" = Some taskId ->
  r ∈ records db -> rec_teamId r = teamId -> rec_taskId r = taskId ->
  (scan_db env req db).2 = db.
Proof.
  intros Hteam Htask Hr Ht Hk.
  destruct (scan_db_cases env req db) as [[Hsame _]|Hacc]; [done|].
  destruct Hacc as (teamId' & taskId' & task & idx & opt & Ht' & Hk' & _ & Hnone & _).
  rewrite Hteam in Ht'. injection Ht' as <-.
  unfold Lodash.find_id in Hk'. rewrite Htask in Hk'.
  destruct (List.find _ _); [|done]. injection Hk' as <- _.
  apply (find_none_elem _ _ r) in Hnone; [|done].
  unfold answer_of in Hnone. rewrite !bool_decide_eq_true_2 in Hnone by done. done.
Qed.

(** C2, as the code has it.  When a record for (teamId, taskId) exists, a
    scan for that pair, with any option index, leaves records, teams and
    logs (the whole store) unchanged; and when the task exists and the
    request passes the event checks it is answered with the already-answered
    redirect.  The task check and the event checks come first in the
    handler, so a request that fails one of them gets that check's reply. *)
Theorem scan_already_answered env req db teamId taskId r :
  Js.or_null (cookies req !! "teamId") = Some teamId ->
  query req !! "taskId" = Some taskId ->
  r ∈ records db -> rec_teamId r = teamId -> rec_taskId r = taskId ->
  (scan_db env req db).2 = db /\
  (is_Some (Lodash.find (task_is taskId) (tasks db)) ->
   event_gate db (Js.or_null (cookies req !! "eventId")) teamId taskId = None ->
   scan_db env req db = (Redirect "/joined.html?already=true", db)).
Proof.
  intros Hteam Htask Hr Ht Hk. split.
  - by eapply scan_db_answered_frame.
  - intros [task Hfind] Hgate. unfold scan_db, Lodash.find_id.
    rewrite Hteam, Htask. unfold Lodash.find in Hfind. rewrite Hfind, Hgate.
    destruct (find_is_some (answer_of teamId taskId) (records db) r Hr) as [r' ->];
      [|done].
    unfold answer_of. by rewrite !bool_decide_eq_true_2.
Qed.

Lemma scan_already_answered_witness :
  scan_db demo_env (demo_scan [("teamId", "X")] "T" "7") demo_answered
  = (Redirect "/joined.html?already=true", demo_answered).
Proof.
  refine (proj2 (scan_already_answered demo_env (demo_scan [("teamId", "X")] "T" "7")
            demo_answered "X" "T" (mkAnswer "id-0" "X" "T" 0 10 None 0) _ _ _ _ _) _ _).
  - vm_compute. reflexivity.
  - vm_compute. reflexivity.
  - apply list_elem_of_here.
  - reflexivity.
  - reflexivity.
  - vm_compute. eexists. reflexivity.
  - vm_compute. reflexivity.
Defined.

(** C2 as stated fails: team X has answered task T and now carries the
    cookie of event E, which does not list T.  The record for (X, T) exists,
    yet the scan is answered with the not-in-event redirect. *)
Lemma scan_already_answered_counterexample :
  mkAnswer "id-0" "X" "T" 0 10 None 0 ∈ records (open_store demo_answered_world "acme") /\
  cookies (demo_scan [("teamId", "X"); ("eventId", "E")] "T" "0") !! "teamId" = Some "X" /\
  query (demo_scan [("teamId", "X"); ("eventId", "E")] "T" "0") !! "taskId" = Some "T" /\
  scan demo_env (demo_scan [("teamId", "X"); ("eventId", "E")] "T" "0") demo_answered_world
    = (Redirect "/joined.html?notinEvent=true", demo_answered_world) /\
  (scan demo_env (demo_scan [("teamId", "X"); ("eventId", "E")] "T" "0")
        demo_answered_world).1 <> Redirect "/joined.html?already=true".
Proof.
  split; [vm_compute; apply list_elem_of_here|].
  split; [vm_compute; reflexivity|]. split; [vm_compute; reflexivity|].
  assert (scan demo_env (demo_scan [("teamId", "X"); ("eventId", "E")] "T" "0")
            demo_answered_world
          = (Redirect "/joined.html?notinEvent=true", demo_answered_world)) as ->
    by (vm_compute; reflexivity).
  split; [reflexivity | discriminate].
Qed.

(** C4, as the code has it.  For a scan request with a team session whose
    task id resolves to a task, and which carries an event id: an event id
    that resolves to no event gives 400 (invalid event); otherwise a task
    outside the event's taskIds gives the not-in-event redirect, whether or
    not the team belongs to the event; otherwise a team outside the event's
    teamIds gives 403.  None of the three changes the store. *)
Theorem scan_event_checks env req db teamId taskId task eventId :
  Js.or_null (cookies req !! "teamId") = Some teamId ->
  Lodash.find_id task_is (tasks db) (query req !! "taskId") = Some (taskId, task) ->
  Js.or_null (cookies req !! "eventId") = Some eventId ->
  (Lodash.find (event_is eventId) (events db) = None ->
   scan_db env req db = (Send 400 "Ugyldigt event", db)) /\
  (forall ev, Lodash.find (event_is eventId) (events db) = Some ev ->
     (taskId ∉ taskIds ev ->
      scan_db env req db = (Redirect "/joined.html?notinEvent=true", db)) /\
     (taskId ∈ taskIds ev -> teamId ∉ teamIds ev ->
      scan_db env req db = (Send 403 "Hold ikke med i event", db))).
Proof.
  intros Hteam Htask Hev. unfold scan_db. rewrite Hteam, Htask, Hev.
  unfold event_gate, Lodash.includes. split.
  - by intros ->.
  - intros ev ->. split.
    + intros Hout. by rewrite bool_decide_eq_false_2.
    + intros Hin Hout. by rewrite bool_decide_eq_true_2, bool_decide_eq_false_2.
Qed.

Lemma scan_event_checks_witness :
  scan_db demo_env (demo_scan [("teamId", "X"); ("eventId", "E")] "T" "0") demo_db
  = (Redirect "/joined.html?notinEvent=true", demo_db).
Proof.
  refine (proj1 (proj2 (scan_event_checks demo_env
            (demo_scan [("teamId", "X"); ("eventId", "E")] "T" "0")
            demo_db "X" "T" demo_task "E" _ _ _) demo_event _) _).
  - vm_compute. reflexivity.
  - vm_compute. reflexivity.
  - vm_compute. reflexivity.
  - vm_compute. reflexivity.
  - simpl. apply not_elem_of_nil.
Defined.

(** C4 as stated fails: a request with the cookie of the existing event E and
    a task id that names no task is not in E's taskIds, yet the reply is 400
    (invalid task), not the not-in-event redirect; with the cookie of an
    event that does not exist the reply is again the invalid-task one, not
    the invalid-event one. *)
Lemma scan_event_checks_counterexample :
  (Lodash.find (event_is "E") (events demo_db) = Some demo_event /\
   ("nope" ∉ taskIds demo_event) /\
   scan demo_env (demo_scan [("teamId", "X"); ("eventId", "E")] "nope" "0") demo_world
     = (Send 400 "Ugyldig opgave", demo_world) /\
   (scan demo_env (demo_scan [("teamId", "X"); ("eventId", "E")] "nope" "0")
         demo_world).1 <> Redirect "/joined.html?notinEvent=true") /\
  (Lodash.find (event_is "gone") (events demo_db) = None /\
   scan demo_env (demo_scan [("teamId", "X"); ("eventId", "gone")] "nope" "0") demo_world
     = (Send 400 "Ugyldig opgave", demo_world) /\
   (scan demo_env (demo_scan [("teamId", "X"); ("eventId", "gone")] "nope" "0")
         demo_world).1 <> Send 400 "Ugyldigt event").
Proof.
  split.
  - split; [reflexivity|]. split; [apply not_elem_of_nil|].
    assert (scan demo_env (demo_scan [("teamId", "X"); ("eventId", "E")] "nope" "0")
              demo_world = (Send 400 "Ugyldig opgave", demo_world)) as ->
      by (vm_compute; reflexivity).
    split; [reflexivity | discriminate].
  - split; [reflexivity|].
    assert (scan demo_env (demo_scan [("teamId", "X"); ("eventId", "gone")] "nope" "0")
              demo_world = (Send 400 "Ugyldig opgave", demo_world)) as ->
      by (vm_compute; reflexivity).
    split; [reflexivity | discriminate].
Qed.

(** ** Events *)

Lemma uniq_from (seen xs : list string) :
  NoDup seen ->
  let out := foldl (fun seen x => if bool_decide (x ∈ seen) then seen else seen ++ [x])
                   seen xs in
  NoDup out /\ forall x, x ∈ out <-> x ∈ seen \/ x ∈ xs.
Proof.
  revert seen. induction xs as [|y xs IH]; intros seen Hseen; simpl.
  - split; [done|]. intros x. rewrite elem_of_nil. tauto.
  - case_bool_decide as Hy.
    + destruct (IH seen Hseen) as [Hnd Hin]. split; [done|].
      intros x. rewrite Hin, elem_of_cons. split; [tauto|].
      intros [?|[->|?]]; tauto.
    + destruct (IH (seen ++ [y])) as [Hnd Hin].
      { apply NoDup_app. split; [done|]. split; [|apply NoDup_singleton].
        intros x Hx ->%list_elem_of_singleton. done. }
      split; [done|]. intros x.
      rewrite Hin, elem_of_app, list_elem_of_singleton, elem_of_cons. tauto.
Qed.

Lemma uniq_NoDup xs : NoDup (Lodash.uniq xs).
Proof. apply (uniq_from [] xs). constructor. Qed.

Lemma elem_of_uniq xs x : x ∈ Lodash.uniq xs <-> x ∈ xs.
Proof.
  destruct (uniq_from [] xs) as [_ H]; [constructor|].
  unfold Lodash.uniq. rewrite H, elem_of_nil. tauto.
Qed.

Lemma event_is_same id ev : event_is id ev = true -> event_id ev = id.
Proof. unfold event_is. by intros ?%bool_decide_eq_true. Qed.

(** C5.  Appending to an event: when no event has the id the reply is 404
    and nothing changes.  Otherwise the event's teamIds and taskIds become
    the duplicate-free union of the previous ids and the ids provided: every
    previous id stays, every provided id is there, none occurs twice.  The
    id, name and creation time of the event are kept, the updated event is
    the one returned and the one stored under the id, and the other events
    and collections are untouched. *)
Theorem append_event id addTeams addTasks db :
  (Lodash.find (event_is id) (events db) = None ->
   appendEvent id addTeams addTasks db
   = (SendJson 404 (JError "Event ikke fundet"), db)) /\
  (forall ev, Lodash.find (event_is id) (events db) = Some ev ->
   exists next db',
     appendEvent id addTeams addTasks db = (SendJson 200 (JEvent next), db') /\
     NoDup (teamIds next) /\ NoDup (taskIds next) /\
     (forall x, x ∈ teamIds next <-> x ∈ teamIds ev \/ x ∈ default [] addTeams) /\
     (forall x, x ∈ taskIds next <-> x ∈ taskIds ev \/ x ∈ default [] addTasks) /\
     event_id next = event_id ev /\ event_name next = event_name ev /\
     created next = created ev /\
     Lodash.find (event_is id) (events db') = Some next /\
     (forall other, other <> id ->
        Lodash.find (event_is other) (events db')
        = Lodash.find (event_is other) (events db)) /\
     length (events db') = length (events db) /\
     teams db' = teams db /\ tasks db' = tasks db /\
     records db' = records db /\ logs db' = logs db).
Proof.
  unfold appendEvent. split; [by intros ->|].
  intros ev Hev. rewrite Hev. eexists _, _. split; [reflexivity|]. simpl.
  destruct (find_some_elem _ _ _ Hev) as [_ Hid%event_is_same].
  split; [apply uniq_NoDup|]. split; [apply uniq_NoDup|].
  split; [intros x; by rewrite elem_of_uniq, elem_of_app|].
  split; [intros x; by rewrite elem_of_uniq, elem_of_app|].
  do 3 (split; [done|]). rewrite Hid.
  split.
  { rewrite find_modify_same, Hev; [done|]. intros x _. unfold event_is; simpl.
    by apply bool_decide_eq_true_2. }
  split.
  { intros other Hne. unfold Lodash.find in *. clear Hid.
    induction (events db) as [|e es IH]; simpl in *; [done|].
    destruct (event_is id e) eqn:E; simpl.
    - injection Hev as ->. apply event_is_same in E.
      unfold event_is; simpl. rewrite !bool_decide_eq_false_2 by congruence. done.
    - destruct (event_is other e); [done | by apply IH]. }
  split; [apply modify_length | done].
Qed.

(** ** Tasks and teams *)

(** C7.  Deleting a task removes the tasks with that id and exactly the
    records whose taskId is that id: a record is in the store afterwards if
    and only if it was there before and refers to another task, and the
    surviving records keep their order.  Logs, teams (and so every score)
    and events are untouched. *)
Theorem delete_task taskId db :
  exists db',
    deleteTask taskId db = (SendJson 200 JOk, db') /\
    (forall t, t ∈ tasks db' <-> t ∈ tasks db /\ task_id t <> taskId) /\
    (forall r, r ∈ records db' <-> r ∈ records db /\ rec_taskId r <> taskId) /\
    records db' `sublist_of` records db /\
    logs db' = logs db /\ teams db' = teams db /\ events db' = events db /\
    (forall teamId, team_score db' teamId = team_score db teamId).
Proof.
  unfold deleteTask. eexists. split; [reflexivity|]. simpl.
  split.
  { intros t. rewrite elem_of_remove. unfold task_is.
    by rewrite bool_decide_eq_false. }
  split.
  { intros r. rewrite elem_of_remove. unfold of_task.
    by rewrite bool_decide_eq_false. }
  split; [apply remove_sublist | done].
Qed.

Lemma modify_skip {A} (p : A -> bool) f (l1 l2 : list A) x :
  (forall y, y ∈ l1 -> p y = false) -> p x = true ->
  Lodash.modify p f (l1 ++ x :: l2) = l1 ++ f x :: l2.
Proof.
  intros Hl1 Hx. induction l1 as [|y l1 IH]; simpl.
  - by rewrite Hx.
  - rewrite (Hl1 y) by apply list_elem_of_here. f_equal. apply IH.
    intros z Hz. apply Hl1. by apply list_elem_of_further.
Qed.

(** The [forEach] of [/api/admin/reset], from the point where the teams
    [done_] have been visited and [todo] are still to come. *)
Lemma reset_forEach (done_ todo : list Team) :
  NoDup (team_id <$> (done_ ++ todo)) ->
  foldl (fun cur t => Lodash.modify (team_is (team_id t)) (set_score (fun _ => 0)) cur)
        ((set_score (fun _ => 0) <$> done_) ++ todo) todo
  = set_score (fun _ => 0) <$> (done_ ++ todo).
Proof.
  revert done_. induction todo as [|t todo IH]; intros done_ Hnd; simpl.
  - by rewrite !app_nil_r.
  - rewrite modify_skip.
    + replace ((set_score (fun _ => 0) <$> done_) ++ set_score (fun _ => 0) t :: todo)
        with ((set_score (fun _ => 0) <$> (done_ ++ [t])) ++ todo)
        by (rewrite fmap_app, <- app_assoc; done).
      rewrite IH; rewrite <- app_assoc; done.
    + intros y Hy. apply list_elem_of_fmap in Hy as (u & -> & Hu).
      rewrite team_is_set_score. apply bool_decide_eq_false. intros Heq.
      rewrite fmap_app, fmap_cons in Hnd. apply NoDup_app in Hnd as (_ & Hdis & _).
      apply (Hdis (team_id u)).
      * apply list_elem_of_fmap. by exists u.
      * rewrite Heq. apply list_elem_of_here.
    + by apply bool_decide_eq_true_2.
Qed.

(** C8.  Resetting the scores empties the records and sets the score of
    every team to 0; every team keeps its id and its name, in the same
    order, and tasks, events and logs are unchanged.  This is for a store
    whose team ids are pairwise distinct, as they are in every store the
    server builds ([reachable_teams_distinct]): the handler reaches each
    team through [find({ id })]. *)
Theorem reset_scores db :
  teams_distinct db ->
  exists db',
    reset db = (SendJson 200 JOk, db') /\
    records db' = [] /\
    teams db' = set_score (fun _ => 0) <$> teams db /\
    (forall t, t ∈ teams db' -> score t = 0) /\
    team_id <$> teams db' = team_id <$> teams db /\
    team_name <$> teams db' = team_name <$> teams db /\
    tasks db' = tasks db /\ events db' = events db /\ logs db' = logs db.
Proof.
  intros Hnd. unfold reset, Lodash.forEach. eexists. split; [reflexivity|]. simpl.
  pose proof (reset_forEach [] (teams db) Hnd) as H. simpl in H. rewrite H.
  split; [done|]. split; [done|].
  split; [by intros t (u & -> & _)%list_elem_of_fmap|].
  split; [by rewrite <- list_fmap_compose|].
  split; [by rewrite <- list_fmap_compose | done].
Qed.

Lemma reset_scores_witness :
  exists db',
    reset demo_answered = (SendJson 200 JOk, db') /\
    records db' = [] /\ teams db' = [mkTeam "X" "Hold 1" 0] /\
    logs db' = [LogAnswer "id-1" "X" "T" 0 10 None 1].
Proof.
  destruct (reset_scores demo_answered)
    as (db' & Hres & Hrec & Hteams & _ & _ & _ & _ & _ & Hlogs).
  - unfold teams_distinct. simpl. apply NoDup_singleton.
  - exists db'. split; [exact Hres|]. split; [exact Hrec|].
    split; [rewrite Hteams; reflexivity | rewrite Hlogs; reflexivity].
Defined.

Lemma createTeams_loop_spec env n i db out :
  createTeams_loop env n i db out
  = (out ++ ((fun j => (uuidv4 env (i + j), team_label (length (teams db) + j))) <$> seq 0 n),
     set_teams db
       (teams db ++
        ((fun j => mkTeam (uuidv4 env (i + j)) (team_label (length (teams db) + j)) 0)
           <$> seq 0 n))).
Proof.
  revert i db out. induction n as [|n IH]; intros i db out.
  - simpl. rewrite !app_nil_r. by destruct db.
  - cbn [createTeams_loop]. rewrite IH. cbn [seq fmap list_fmap].
    unfold Lodash.push, set_teams; simpl.
    rewrite <- !fmap_S_seq, <- !list_fmap_compose, <- !app_assoc, length_app; simpl.
    rewrite !Nat.add_0_r.
    assert (forall {B} (f g : nat -> B),
              (forall j, f j = g j) -> f <$> seq 0 n = g <$> seq 0 n) as Hext
      by (intros B f g Hfg; apply list_fmap_ext; auto).
    f_equal; [f_equal; f_equal | f_equal; f_equal; f_equal];
      apply Hext; intros j; unfold compose; cbn beta;
      replace (i + S j)%nat with (S (i + j)) by lia;
      replace (length (teams db) + S j)%nat with (length (teams db) + 1 + j)%nat by lia;
      reflexivity.
Qed.

(** C6, as the code has it.  In a tenant holding k teams, a request for
    [count >= 1] teams adds [count] teams, in order, with the names
    "Hold k+1" ... "Hold k+count" (Hold is the Danish word for team) and
    score 0, and replies with their ids and names; the number in each name
    is the team count plus one when that team is created.  A count that is
    0, missing or not a number is taken as 1, and a negative count adds no
    team. *)
Theorem create_teams env count db :
  let k := length (teams db) in
  let n := Z.to_nat (team_count count) in
  createTeams env count db
    = (SendJson 200 (JTeams (batch_reply env k n)),
       set_teams db (teams db ++ batch env k n)) /\
  (forall c, Js.parseInt count = Some c -> 1 <= c -> n = Z.to_nat c) /\
  (Js.parseInt count = None \/ Js.parseInt count = Some 0 -> n = 1%nat) /\
  (forall c, Js.parseInt count = Some c -> c < 0 -> n = 0%nat) /\
  (forall i, (i < n)%nat ->
     batch env k n !! i = Some (mkTeam (uuidv4 env i) (team_label (k + i)) 0)).
Proof.
  intros k n. split.
  { unfold createTeams. fold n. rewrite createTeams_loop_spec. reflexivity. }
  subst n. unfold team_count.
  split.
  { intros c -> Hc. destruct (Z.eqb_spec c 0); [lia | done]. }
  split.
  { intros [-> | ->]; reflexivity. }
  split.
  { intros c -> Hc. destruct (Z.eqb_spec c 0); lia. }
  intros i Hi. unfold batch. rewrite list_lookup_fmap, lookup_seq_lt by done. done.
Qed.

Lemma create_teams_witness :
  createTeams demo_env (Some "3") defaults
  = (SendJson 200 (JTeams [("id-0", "Hold 1"); ("id-1", "Hold 2"); ("id-2", "Hold 3")]),
     mkStore [mkTeam "id-0" "Hold 1" 0; mkTeam "id-1" "Hold 2" 0; mkTeam "id-2" "Hold 3" 0]
             [] [] [] []).
Proof.
  rewrite (proj1 (create_teams demo_env (Some "3") defaults)).
  vm_compute. reflexivity.
Defined.

(** C6 as stated fails for a batch of 0 teams: the handler replaces the
    count 0 by 1 and creates the team "Hold 1". *)
Lemma create_teams_counterexample :
  Js.parseInt (Some "0") = Some 0 /\
  teams (createTeams demo_env (Some "0") defaults).2 = [mkTeam "id-0" "Hold 1" 0] /\
  length (teams (createTeams demo_env (Some "0") defaults).2)
  <> (length (teams defaults) + 0)%nat.
Proof.
  split; [reflexivity|].
  assert (teams (createTeams demo_env (Some "0") defaults).2
          = [mkTeam "id-0" "Hold 1" 0]) as -> by (vm_compute; reflexivity).
  split; [reflexivity | simpl; lia].
Qed.

(** ** Tenant stores under the routes *)

Lemma getTenantDb_handle w tenant safe db w1 :
  getTenantDb w tenant = Handle safe db w1 ->
  db = open_store w safe /\ (forall m, tenants w !! safe <> Some (Unreadable m)) /\
  tenants w1 = <[safe := Db db]> (tenants w) /\ users w1 = users w.
Proof.
  unfold getTenantDb, open_store.
  destruct (negb _); [done|].
  destruct (tenants w !! _) as [[s|]|] eqn:E; [| done |].
  - intros [= <- <- <-]. rewrite E. by rewrite insert_id.
  - intros [= <- <- <-]. rewrite E. done.
Qed.

Lemma commit_handle w tenant safe db w1 db' :
  getTenantDb w tenant = Handle safe db w1 ->
  tenants (commit safe db' w1) = <[safe := Db db']> (tenants w).
Proof.
  intros (_ & _ & Hw1 & _)%getTenantDb_handle. unfold commit; simpl.
  rewrite Hw1. apply insert_insert_eq.
Qed.

Lemma admin_touches handler req w :
  touches (fun db => (handler db).2) w (admin handler req w).2.
Proof.
  unfold admin, withTenantDb. destruct (adminApi req); [|by left].
  destruct (Js.or_null _) as [tenant|]; [|by left].
  destruct (getTenantDb w (Some tenant)) as [safe db w1|] eqn:E; [|by left].
  destruct (handler db) as [res db'] eqn:Eh. right. exists safe.
  pose proof (getTenantDb_handle _ _ _ _ _ E) as (Hdb & Hok & _).
  split; [done|]. rewrite <- Hdb, Eh. by eapply commit_handle.
Qed.

Lemma serve_touches c w : touches (effect c w) w (serve c w).2.
Proof.
  destruct c; simpl; try apply admin_touches.
  - unfold join. destruct (resolveTenantFromReq req) as [tenant|] eqn:Er; [|by left].
    destruct (getTenantDb w (Some tenant)) as [safe db w1|] eqn:E; [|by left]. simpl.
    destruct (join_db env tenant req db) as [[cookie res] db'] eqn:Eh. right.
    exists safe. pose proof (getTenantDb_handle _ _ _ _ _ E) as (Hdb & Hok & _).
    split; [done|]. rewrite <- Hdb. simpl. rewrite Er. simpl. rewrite Eh.
    by eapply commit_handle.
  - unfold scan. destruct (resolveTenantFromReq req) as [tenant|]; [|by left].
    destruct (getTenantDb w (Some tenant)) as [safe db w1|] eqn:E; [|by left].
    destruct (scan_db env req db) as [res db'] eqn:Eh. right.
    exists safe. pose proof (getTenantDb_handle _ _ _ _ _ E) as (Hdb & Hok & _).
    split; [done|]. rewrite <- Hdb. simpl. rewrite Eh. by eapply commit_handle.
  - unfold apiTask. destruct (resolveTenantFromReq req) as [tenant|]; [|by left].
    destruct (getTenantDb w (Some tenant)) as [safe db w1|] eqn:E; [|by left].
    pose proof (getTenantDb_handle _ _ _ _ _ E) as (Hdb & Hok & Hw1 & _).
    right. exists safe. split; [done|]. rewrite <- Hdb. simpl.
    by destruct (Lodash.find _ _).
  - unfold apiScore. destruct (resolveTenantFromReq req) as [tenant|]; [|by left].
    destruct (getTenantDb w (Some tenant)) as [safe db w1|] eqn:E; [|by left].
    pose proof (getTenantDb_handle _ _ _ _ _ E) as (Hdb & Hok & Hw1 & _).
    right. exists safe. split; [done|]. rewrite <- Hdb. simpl.
    destruct (Js.or_null _); [|done]. by destruct (Lodash.find _ _).
  - unfold apiEvent. destruct (resolveTenantFromReq req) as [tenant|]; [|by left].
    destruct (getTenantDb w (Some tenant)) as [safe db w1|] eqn:E; [|by left].
    pose proof (getTenantDb_handle _ _ _ _ _ E) as (Hdb & Hok & Hw1 & _).
    right. exists safe. split; [done|]. rewrite <- Hdb. simpl.
    destruct (Js.or_null _); [|done]. by destruct (Lodash.find _ _).
Qed.

(** The routes on the store of the tenant they resolve. *)
Lemma scan_on_store env req w tenant safe db w1 :
  resolveTenantFromReq req = Some tenant ->
  getTenantDb w (Some tenant) = Handle safe db w1 ->
  scan env req w = ((scan_db env req db).1, commit safe (scan_db env req db).2 w1).
Proof. intros Hr Hg. unfold scan. rewrite Hr, Hg. by destruct (scan_db env req db). Qed.

Lemma admin_on_store handler req w tenant safe db w1 :
  adminApi req = true ->
  Js.or_null (Js.or_ (resolveTenantFromReq req) (cookies req !! "adminUser")) = Some tenant ->
  getTenantDb w (Some tenant) = Handle safe db w1 ->
  admin handler req w = ((handler db).1, commit safe (handler db).2 w1).
Proof.
  intros Ha Hr Hg. unfold admin, withTenantDb. rewrite Ha, Hr, Hg.
  by destruct (handler db).
Qed.

Lemma open_store_lookup w tenant db :
  tenants w !! tenant = Some (Db db) -> open_store w tenant = db.
Proof. unfold open_store. by intros ->. Qed.

(** A property of stores that holds of the empty store and that a handler
    preserves holds in every tenant after the route. *)
Lemma touches_invariant (I : Store -> Prop) f w w' :
  touches f w w' -> I defaults ->
  (forall safe, I (open_store w safe) -> I (f (open_store w safe))) ->
  (forall tenant db, tenants w !! tenant = Some (Db db) -> I db) ->
  forall tenant db, tenants w' !! tenant = Some (Db db) -> I db.
Proof.
  intros [Heq | (safe & Hok & Heq)] Hdef Hf Hw tenant db; rewrite Heq; [apply Hw|].
  destruct (decide (safe = tenant)) as [->|Hne].
  - rewrite lookup_insert_eq. intros [= <-]. apply Hf. unfold open_store.
    destruct (tenants w !! tenant) as [[s|]|] eqn:E; [by eapply Hw | done | done].
  - rewrite lookup_insert_ne by done. apply Hw.
Qed.

(** ** Team identifiers *)

(** Distinct team ids are an invariant of the server: a batch with new
    identifiers keeps them distinct, and no other call changes the ids other
    than by removing all teams. *)
Lemma createTeams_distinct env count db :
  fresh_ids env (Z.to_nat (team_count count)) db ->
  teams_distinct db -> teams_distinct (createTeams env count db).2.
Proof.
  intros [Hnd Hfresh] Hdb. unfold createTeams, teams_distinct.
  rewrite createTeams_loop_spec. simpl. rewrite fmap_app, <- list_fmap_compose.
  apply NoDup_app. split; [done|]. split; [|exact Hnd].
  intros id Hin (i & -> & Hi)%list_elem_of_fmap.
  apply elem_of_seq in Hi. apply (Hfresh i); [lia | done].
Qed.

Lemma effect_team_ids c w db :
  team_id <$> teams (effect c w db) = team_id <$> teams db \/
  teams (effect c w db) = [] \/
  exists env req count, c = CCreateTeams env req count.
Proof.
  destruct c; simpl; try by left.
  - left. unfold join_db. destruct (Lodash.find_id _ _ _) as [[teamId t]|]; [|done].
    destruct (Js.or_null _); [|done].
    destruct (Lodash.find _ _); [|done]. by destruct (negb _).
  - left. destruct (scan_db_cases env req db) as [[-> _]|Hacc]; [done|].
    destruct Hacc as (teamId & taskId & task & idx & opt & Hacc).
    rewrite (scan_db_accepted env _ _ _ _ _ _ _ Hacc). simpl. by apply modify_map.
  - right. right. by eauto.
  - right. by left.
  - left. unfold createEvent. by destruct (Js.or_null name).
  - left. unfold getEvent. by destruct (Lodash.find _ _).
  - left. unfold appendEvent. by destruct (Lodash.find _ _).
  - left. unfold Lodash.forEach.
    assert (forall ts cur : list Team,
      team_id <$> foldl (fun cur t => Lodash.modify (team_is (team_id t))
                                        (set_score (fun _ => 0)) cur) cur ts
      = team_id <$> cur) as H.
    { induction ts as [|t ts IH]; intros cur; simpl; [done|].
      rewrite IH. by apply modify_map. }
    apply H.
  - left. destruct teamId; simpl; [by apply modify_map | done].
Qed.

Lemma serve_teams_distinct c w :
  (forall env req count safe,
     c = CCreateTeams env req count ->
     fresh_ids env (Z.to_nat (team_count count)) (open_store w safe)) ->
  (forall tenant db, tenants w !! tenant = Some (Db db) -> teams_distinct db) ->
  forall tenant db, tenants (serve c w).2 !! tenant = Some (Db db) -> teams_distinct db.
Proof.
  intros Hfresh. apply (touches_invariant teams_distinct (effect c w)).
  - apply serve_touches.
  - constructor.
  - intros safe Hdb. unfold teams_distinct in *.
    destruct (effect_team_ids c w (open_store w safe))
      as [-> | [-> | (env & req & count & ->)]]; [done | constructor |].
    apply createTeams_distinct; [by eapply Hfresh | done].
Qed.

(** From a server without tenant stores, team ids are pairwise distinct in
    every store of every state reached. *)
Lemma reachable_teams_distinct w0 w :
  tenants w0 = ∅ -> rtc fresh_step w0 w ->
  forall tenant db, tenants w !! tenant = Some (Db db) -> teams_distinct db.
Proof.
  intros Hempty Hrun.
  assert (forall tenant db, tenants w0 !! tenant = Some (Db db) -> teams_distinct db)
    as Hw0 by (intros tenant db; rewrite Hempty, lookup_empty; done).
  clear Hempty. induction Hrun as [|w1 w2 w3 Hstep _ IH]; [done|].
  apply IH. destruct Hstep as [c w Hfresh | name safe db w1 us w Hopen | us w].
  - by apply serve_teams_distinct.
  - apply getTenantDb_handle in Hopen as (-> & Hok & -> & _). simpl.
    intros tenant db. destruct (decide (safe = tenant)) as [->|Hne].
    + rewrite lookup_insert_eq. intros [= <-]. unfold open_store.
      destruct (tenants w !! tenant) as [[s0|]|] eqn:E;
        [by eapply Hw0 | constructor | constructor].
    + rewrite lookup_insert_ne by done. apply Hw0.
  - exact Hw0.
Qed.

(** What the distinctness of ids rules out: were two teams to share an id,
    [find({ id })] would reach the first of them on both visits. *)
Remark reset_shared_id :
  teams (reset (mkStore [mkTeam "a" "Hold 1" 5; mkTeam "a" "Hold 2" 7] [] [] [] [])).2
  = [mkTeam "a" "Hold 1" 0; mkTeam "a" "Hold 2" 7].
Proof. reflexivity. Qed.

(** ** At most one answer per team and task *)

Lemma join_db_records env tenant req db :
  records (join_db env tenant req db).2 = records db.
Proof.
  unfold join_db. destruct (Lodash.find_id _ _ _) as [[teamId t]|]; [|done].
  destruct (Js.or_null _); [|done].
  destruct (Lodash.find _ _); [|done]. by destruct (negb _).
Qed.

Lemma createTeams_records env count db :
  records (createTeams env count db).2 = records db.
Proof. unfold createTeams. by rewrite createTeams_loop_spec. Qed.

(** Only an accepted scan adds a record; every other call keeps the records
    or drops some of them. *)
Lemma effect_records c w db :
  records (effect c w db) `sublist_of` records db \/
  exists env req teamId taskId task idx opt,
    c = CScan env req /\ accepted req db teamId taskId task idx opt /\
    effect c w db = scored env req db teamId taskId idx opt.
Proof.
  destruct c; simpl; try by left.
  - left. by rewrite join_db_records.
  - destruct (scan_db_cases env req db) as [[-> _]|Hacc]; [by left|]. right.
    destruct Hacc as (teamId & taskId & task & idx & opt & Hacc).
    exists env, req, teamId, taskId, task, idx, opt. split; [done|]. split; [done|].
    by rewrite (scan_db_accepted env _ _ _ _ _ _ _ Hacc).
  - left. apply remove_sublist.
  - left. by rewrite createTeams_records.
  - left. apply sublist_nil_l.
  - left. unfold createEvent. by destruct (Js.or_null name).
  - left. unfold getEvent. by destruct (Lodash.find _ _).
  - left. unfold appendEvent. by destruct (Lodash.find _ _).
  - left. apply sublist_nil_l.
  - left. by destruct teamId.
Qed.

Lemma one_answer_sublist db db' :
  records db' `sublist_of` records db -> one_answer db -> one_answer db'.
Proof.
  intros Hsub Hone teamId taskId.
  pose proof (filter_sublist_length (answer_of teamId taskId) _ _ Hsub).
  specialize (Hone teamId taskId). lia.
Qed.

Lemma answer_of_pair teamId taskId r :
  answer_of teamId taskId r = true -> rec_teamId r = teamId /\ rec_taskId r = taskId.
Proof.
  unfold answer_of. intros [H1 H2]%andb_true_iff.
  by apply bool_decide_eq_true in H1, H2.
Qed.

Lemma one_answer_scored env req db teamId taskId task idx opt :
  accepted req db teamId taskId task idx opt ->
  one_answer db -> one_answer (scored env req db teamId taskId idx opt).
Proof.
  intros (_ & _ & _ & Hnone & _) Hone team task'. unfold scored; simpl.
  rewrite List.filter_app, length_app. simpl.
  destruct (answer_of team task' _) eqn:E; simpl.
  - apply answer_of_pair in E as [<- <-]. simpl.
    by rewrite (filter_nil_of_find _ _ Hnone).
  - specialize (Hone team task'). lia.
Qed.

Lemma effect_one_answer c w db : one_answer db -> one_answer (effect c w db).
Proof.
  intros Hone. destruct (effect_records c w db)
    as [Hsub | (env & req & teamId & taskId & task & idx & opt & _ & Hacc & ->)].
  - by eapply one_answer_sublist.
  - by eapply one_answer_scored.
Qed.

Lemma one_answer_defaults : one_answer defaults.
Proof. intros teamId taskId. simpl. lia. Qed.

(** A record that a call brings into a store comes from an accepted scan of
    a pair that had no record. *)
Lemma effect_new_record c w db r :
  r ∈ records (effect c w db) -> r ∉ records db ->
  (exists env req, c = CScan env req) /\
  Lodash.find (answer_of (rec_teamId r) (rec_taskId r)) (records db) = None.
Proof.
  intros Hin Hout. destruct (effect_records c w db)
    as [Hsub | (env & req & teamId & taskId & task & idx & opt & -> & Hacc & Heq)].
  - exfalso. apply Hout. by eapply elem_of_sublist.
  - split; [by eauto|]. rewrite Heq in Hin. unfold scored in Hin; simpl in Hin.
    apply elem_of_app in Hin as [Hin | ->%list_elem_of_singleton]; [done|].
    simpl. by destruct Hacc as (_ & _ & _ & Hnone & _).
Qed.

(** Every step acts on the tenant stores through a function that keeps the
    one-answer property and adds records only the way [effect_new_record]
    says. *)
Lemma step_touches w w' :
  step w w' ->
  exists f, touches f w w' /\
    (forall db, one_answer db -> one_answer (f db)) /\
    (forall db r, r ∈ records (f db) -> r ∉ records db ->
       (exists env req, w' = (scan env req w).2) /\
       Lodash.find (answer_of (rec_teamId r) (rec_taskId r)) (records db) = None).
Proof.
  intros [c w0 | name safe db w1 us w0 Hopen | us w0].
  - exists (effect c w0). split; [apply serve_touches|].
    split; [apply effect_one_answer|]. intros db r Hin Hout.
    destruct (effect_new_record c w0 db r Hin Hout) as [(env & req & ->) Hnone].
    split; [by exists env, req | done].
  - exists (fun db => db). split; [|done].
    apply getTenantDb_handle in Hopen as (-> & Hok & -> & _).
    right. by exists safe.
  - exists (fun db => db). split; [by left | done].
Qed.

Lemma step_one_answer w w' : step w w' -> world_one_answer w -> world_one_answer w'.
Proof.
  intros (f & Htouch & Hkeep & _)%step_touches Hw. unfold world_one_answer.
  apply (touches_invariant one_answer f w w' Htouch one_answer_defaults);
    [intros safe; apply Hkeep | exact Hw].
Qed.

(** From a server without tenant stores, every state reached has at most one
    answer per pair in every store. *)
Lemma reachable_one_answer w0 w :
  tenants w0 = ∅ -> rtc step w0 w -> world_one_answer w.
Proof.
  intros Hempty Hrun.
  assert (world_one_answer w0) as Hw0
    by (intros tenant db; rewrite Hempty, lookup_empty; done).
  clear Hempty. induction Hrun as [|w1 w2 w3 Hstep _ IH]; [done|].
  apply IH. by eapply step_one_answer.
Qed.

(** C1.  In every tenant store there is at most one record per pair
    (teamId, taskId), and every step of the server keeps it so.  A record
    that is in a tenant's store after a step and was not there before has
    been put there by the scan handler, and the store held no record for its
    pair: no other operation creates records. *)
Theorem one_answer_per_pair w w' :
  step w w' ->
  (world_one_answer w -> world_one_answer w') /\
  (forall tenant db' r,
     tenants w' !! tenant = Some (Db db') ->
     r ∈ records db' -> r ∉ records (open_store w tenant) ->
     (exists env req, w' = (scan env req w).2) /\
     Lodash.find (answer_of (rec_teamId r) (rec_taskId r))
                 (records (open_store w tenant)) = None).
Proof.
  intros Hstep. split; [by apply step_one_answer|].
  destruct (step_touches w w' Hstep) as (f & Htouch & _ & Hnew).
  intros tenant db' r Hlook Hin Hout.
  destruct Htouch as [Heq | (safe & Hok & Heq)]; rewrite Heq in Hlook.
  - apply open_store_lookup in Hlook. by rewrite Hlook in Hout.
  - destruct (decide (safe = tenant)) as [->|Hne].
    + rewrite lookup_insert_eq in Hlook. injection Hlook as <-. by apply Hnew.
    + rewrite lookup_insert_ne in Hlook by done.
      apply open_store_lookup in Hlook. by rewrite Hlook in Hout.
Qed.

Lemma one_answer_per_pair_witness :
  world_one_answer (scan demo_env (demo_scan [("teamId", "X")] "T" "0") demo_world).2.
Proof.
  refine (proj1 (one_answer_per_pair demo_world _
            (step_serve (CScan demo_env (demo_scan [("teamId", "X")] "T" "0"))
                        demo_world)) _).
  intros tenant db Hlook.
  change (tenants demo_world) with ({[ "acme" := Db demo_db ]} : gmap string TenantFile)
    in Hlook.
  apply lookup_singleton_Some in Hlook as [_ [= <-]].
  intros teamId taskId. simpl. lia.
Defined.

(** ** The event-info endpoint *)

(** C9.  [/api/event] always replies with status 200 and a body
    [{ event: ... }].  The event is null when the tenant cannot be resolved,
    when opening the tenant store fails (the exception is caught), when
    there is no eventId cookie, and when no event has the cookie's id;
    otherwise it is the id and the name of the event found. *)
Theorem event_info req w :
  exists info,
    (apiEvent req w).1 = SendJson 200 (JEventInfo info) /\
    (resolveTenantFromReq req = None -> info = None) /\
    (forall tenant message,
       resolveTenantFromReq req = Some tenant ->
       getTenantDb w (Some tenant) = Throws message -> info = None) /\
    (Js.or_null (cookies req !! "eventId") = None -> info = None) /\
    (forall tenant safe db w1 eventId,
       resolveTenantFromReq req = Some tenant ->
       getTenantDb w (Some tenant) = Handle safe db w1 ->
       Js.or_null (cookies req !! "eventId") = Some eventId ->
       info = (fun ev => (event_id ev, event_name ev))
                <$> Lodash.find (event_is eventId) (events db)).
Proof.
  unfold apiEvent.
  destruct (resolveTenantFromReq req) as [tenant|] eqn:Er.
  2:{ exists None. repeat split; intros; congruence. }
  destruct (getTenantDb w (Some tenant)) as [safe db w1|message] eqn:Eg.
  2:{ exists None. repeat split; intros; simplify_eq; congruence. }
  destruct (Js.or_null (cookies req !! "eventId")) as [eventId|] eqn:Ec.
  2:{ exists None. repeat split; intros; congruence. }
  destruct (Lodash.find (event_is eventId) (events db)) as [ev|] eqn:Hev.
  - exists (Some (event_id ev, event_name ev)).
    repeat split; intros; simplify_eq; try congruence.
    match goal with H : getTenantDb _ _ = Handle _ _ _ |- _ =>
      rewrite Eg in H; injection H as <- <- <- end.
    by rewrite Hev.
  - exists None. repeat split; intros; simplify_eq; try congruence.
    match goal with H : getTenantDb _ _ = Handle _ _ _ |- _ =>
      rewrite Eg in H; injection H as <- <- <- end.
    by rewrite Hev.
Qed.

Lemma event_info_witness :
  (apiEvent (mkRequest ∅ (list_to_map [("tenant", "acme"); ("eventId", "E")]))
            demo_world).1
    = SendJson 200 (JEventInfo (Some ("E", "Final"))) /\
  (apiEvent (mkRequest ∅ (list_to_map [("tenant", "acme"); ("eventId", "E")]))
            broken_world).1
    = SendJson 200 (JEventInfo None).
Proof.
  split.
  - destruct (event_info (mkRequest ∅ (list_to_map [("tenant", "acme"); ("eventId", "E")]))
                         demo_world) as (info & -> & _ & _ & _ & Hfound).
    rewrite (Hfound "acme" "acme" demo_db demo_world "E");
      [reflexivity | vm_compute; reflexivity ..].
  - destruct (event_info (mkRequest ∅ (list_to_map [("tenant", "acme"); ("eventId", "E")]))
                         broken_world) as (info & -> & _ & Hthrow & _).
    rewrite (Hthrow "acme" "Malformed JSON in file: tenants/acme.json");
      [reflexivity | vm_compute; reflexivity ..].
Defined.

(** ** The handlers on the small tenant *)

Example demo_first_scan :
  scan demo_env (demo_scan [("teamId", "X")] "T" "0") demo_world
  = (Redirect "/joined.html?points=10", demo_answered_world).
Proof. vm_compute. reflexivity. Qed.

Example demo_second_scan :
  scan demo_env (demo_scan [("teamId", "X")] "T" "1") demo_answered_world
  = (Redirect "/joined.html?already=true", demo_answered_world).
Proof. vm_compute. reflexivity. Qed.

Example demo_bad_option :
  scan_db demo_env (demo_scan [("teamId", "X")] "T" "2") demo_db
  = (Send 400 "Ugyldig svar", demo_db).
Proof. vm_compute. reflexivity. Qed.

Example demo_no_session :
  scan_db demo_env (demo_scan [] "T" "0") demo_db = (Redirect "/join.html", demo_db).
Proof. vm_compute. reflexivity. Qed.

Example demo_no_tenant :
  scan demo_env (mkRequest (list_to_map [("taskId", "T")]) (list_to_map [("teamId", "X")]))
       demo_world
  = (Send 400 "Mangler tenant", demo_world).
Proof. vm_compute. reflexivity. Qed.

Example demo_append :
  (appendEvent "E" (Some ["X"; "Y"; "Y"]) None demo_db).1
  = SendJson 200 (JEvent (mkEvent "E" "Final" ["X"; "Y"] [] 0)).
Proof. vm_compute. reflexivity. Qed.

Example demo_delete :
  (deleteTask "T" demo_answered).2
  = mkStore [mkTeam "X" "Hold 1" 10] [demo_task2] [] [demo_event]
            [LogAnswer "id-1" "X" "T" 0 10 None 1].
Proof. vm_compute. reflexivity. Qed.

Example parseInt_plain : Js.parseInt (Some " 12abc") = Some 12.
Proof. reflexivity. Qed.
Example parseInt_neg : Js.parseInt (Some "-3") = Some (-3).
Proof. reflexivity. Qed.
Example parseInt_nan : Js.parseInt None = None.
Proof. reflexivity. Qed.
Example trim_both : Js.trim "  ab c  " = "ab c".
Proof. reflexivity. Qed.
Example show_neg : Js.show (-15) = "-15".
Proof. vm_compute. reflexivity. Qed.

Example parseInt_sign_only : Js.parseInt (Some "-") = None.
Proof. reflexivity. Qed.
Example parseInt_list : Js.parseInt (Some "1,2") = Some 1.
Proof. reflexivity. Qed.
Example trim_blank : Js.trim "   " = "".
Proof. reflexivity. Qed.
Example team_count_default : team_count None = 1 /\ team_count (Some "0") = 1.
Proof. split; reflexivity. Qed.

(** * Properties of the remaining code *)

(** ** Trimming *)

Lemma trimStart_strip1 s :
  Js.trimStart s = match strip1 s with Some s' => Js.trimStart s' | None => s end.
Proof.
  destruct s as [|a [|b [|c s3]]]; simpl; [done| | |].
  - by destruct (Js.ws1 a).
  - destruct (Js.ws1 a); [done|]. by destruct (Js.ws2 a b).
  - destruct (Js.ws1 a); [done|]. destruct (Js.ws2 a b); [done|].
    by destruct (Js.ws3 a b c).
Qed.

Lemma blank_strip1 s :
  Js.blank s = match s with
               | EmptyString => true
               | _ => match strip1 s with Some s' => Js.blank s' | None => false end
               end.
Proof.
  destruct s as [|a [|b [|c s3]]]; simpl; [done| | |].
  - by destruct (Js.ws1 a).
  - destruct (Js.ws1 a); [done|]. by destruct (Js.ws2 a b).
  - destruct (Js.ws1 a); [done|]. destruct (Js.ws2 a b); [done|].
    by destruct (Js.ws3 a b c).
Qed.

Lemma strip1_length s s' : strip1 s = Some s' -> (String.length s' < String.length s)%nat.
Proof.
  destruct s as [|a [|b [|c s3]]]; simpl; [done| | |].
  - destruct (Js.ws1 a); [intros [= <-]; simpl; lia | done].
  - destruct (Js.ws1 a); [intros [= <-]; simpl; lia |].
    destruct (Js.ws2 a b); [intros [= <-]; simpl; lia | done].
  - destruct (Js.ws1 a); [intros [= <-]; simpl; lia |].
    destruct (Js.ws2 a b); [intros [= <-]; simpl; lia |].
    destruct (Js.ws3 a b c); [intros [= <-]; simpl; lia | done].
Qed.

(** Induction along the white-space characters at the front of a string. *)
Lemma strip1_ind (P : string -> Prop) :
  (forall s, (forall s', strip1 s = Some s' -> P s') -> P s) -> forall s, P s.
Proof.
  intros Hstep s. remember (String.length s) as n eqn:Hn.
  revert s Hn. induction n as [n IH] using lt_wf_ind. intros s ->.
  apply Hstep. intros s' Hs'. apply (IH (String.length s')); [|done].
  by apply strip1_length.
Qed.

Lemma strip1_app s s' t : strip1 s = Some s' -> strip1 (s +:+ t) = Some (s' +:+ t).
Proof.
  destruct s as [|a [|b [|c s3]]]; simpl; [done| | |].
  - destruct (Js.ws1 a); [by intros [= <-] | done].
  - destruct (Js.ws1 a); [by intros [= <-] |].
    destruct (Js.ws2 a b); [by intros [= <-] | done].
  - destruct (Js.ws1 a); [by intros [= <-] |].
    destruct (Js.ws2 a b); [by intros [= <-] |].
    destruct (Js.ws3 a b c); [by intros [= <-] | done].
Qed.

Lemma strip1_trimStart s : strip1 (Js.trimStart s) = None.
Proof.
  induction s as [s IH] using strip1_ind. rewrite trimStart_strip1.
  destruct (strip1 s) as [s'|] eqn:E; [by apply IH | done].
Qed.

Lemma trimStart_blank s : Js.blank s = true <-> Js.trimStart s = "".
Proof.
  induction s as [s IH] using strip1_ind.
  rewrite trimStart_strip1, blank_strip1. destruct s as [|a s1]; [done|].
  destruct (strip1 (String a s1)) as [s'|] eqn:E; [by apply IH | done].
Qed.

Lemma blank_app s t : Js.blank s = true -> Js.blank t = true -> Js.blank (s +:+ t) = true.
Proof.
  intros Hs Ht. induction s as [s IH] using strip1_ind.
  destruct s as [|a s1]; [done|].
  rewrite blank_strip1 in Hs. rewrite blank_strip1.
  destruct (strip1 (String a s1)) as [s'|] eqn:E; [|done].
  change (String a s1 +:+ t) with (String a (s1 +:+ t)).
  change (String a (s1 +:+ t)) with (String a s1 +:+ t) at 2.
  rewrite (strip1_app _ _ t E). by apply IH.
Qed.

(** [trimEnd] splits a string into what it keeps and a blank rest. *)
Lemma trimEnd_split s : exists q, s = Js.trimEnd s +:+ q /\ Js.blank q = true.
Proof.
  induction s as [|a s1 IH]; [by exists ""|].
  cbn [Js.trimEnd]. destruct (Js.blank (String a s1)) eqn:E.
  - by exists (String a s1).
  - destruct IH as (q & Hq & Hb). exists q. split; [|done].
    change (String a s1 = String a (Js.trimEnd s1 +:+ q)). by f_equal.
Qed.

Lemma trimEnd_blank s : Js.blank (Js.trimEnd s) = true -> Js.trimEnd s = "".
Proof.
  intros Hb. destruct (trimEnd_split s) as (q & Hq & Hbq).
  pose proof (blank_app _ _ Hb Hbq) as Hs. rewrite <- Hq in Hs.
  destruct s as [|a s1]; [done|]. cbn [Js.trimEnd]. by rewrite Hs.
Qed.

Lemma trimEnd_idem s : Js.trimEnd (Js.trimEnd s) = Js.trimEnd s.
Proof.
  induction s as [|a s1 IH]; [done|].
  pose proof (trimEnd_blank (String a s1)) as Hb. cbn [Js.trimEnd] in *.
  destruct (Js.blank (String a s1)) eqn:E; [done|].
  cbn [Js.trimEnd]. destruct (Js.blank (String a (Js.trimEnd s1))) eqn:E'.
  - by specialize (Hb eq_refl).
  - by rewrite IH.
Qed.

Lemma strip1_trimEnd s : strip1 s = None -> strip1 (Js.trimEnd s) = None.
Proof.
  intros Hs. destruct s as [|a s1]; [done|]. cbn [Js.trimEnd].
  destruct (Js.blank (String a s1)); [done|].
  destruct (trimEnd_split s1) as (q & Hq & _).
  destruct (Js.trimEnd s1) as [|b t2] eqn:E1.
  { simpl in *. by destruct (Js.ws1 a). }
  rewrite Hq in Hs. simpl in Hs. simpl.
  destruct (Js.ws1 a); [done|]. destruct (Js.ws2 a b); [done|].
  destruct t2 as [|c t3]; [done|]. simpl in Hs. by destruct (Js.ws3 a b c).
Qed.

Lemma trim_idem s : Js.trim (Js.trim s) = Js.trim s.
Proof.
  unfold Js.trim.
  assert (strip1 (Js.trimEnd (Js.trimStart s)) = None) as H
    by apply strip1_trimEnd, strip1_trimStart.
  rewrite (trimStart_strip1 (Js.trimEnd _)), H. apply trimEnd_idem.
Qed.

Lemma trimEnd_empty s : Js.trimEnd s = "" <-> Js.blank s = true.
Proof.
  destruct s as [|a s1]; [done|]. cbn [Js.trimEnd].
  by destruct (Js.blank (String a s1)).
Qed.

Lemma trim_empty s : Js.trim s = "" <-> Js.blank s = true.
Proof.
  unfold Js.trim. rewrite trimEnd_empty. split.
  - intros Hb. apply trimStart_blank.
    pose proof (strip1_trimStart s) as Hs. rewrite blank_strip1 in Hb.
    destruct (Js.trimStart s); [done|]. by rewrite Hs in Hb.
  - intros Hb%trimStart_blank. by rewrite Hb.
Qed.

Lemma truthy_spec s : Js.truthy s = true <-> s <> "".
Proof.
  unfold Js.truthy. rewrite negb_true_iff. split.
  - intros H ->. done.
  - intros H. by apply String.eqb_neq.
Qed.

Lemma or_null_some x s : Js.or_null x = Some s <-> x = Some s /\ s <> "".
Proof.
  unfold Js.or_null. destruct x as [y|]; [|split; [done | by intros [? _]]].
  destruct (Js.truthy y) eqn:E.
  - apply truthy_spec in E. split; [by intros [= <-] | by intros [? _]].
  - split; [done|]. intros [Hy Hs]. injection Hy as ->.
    apply truthy_spec in Hs. congruence.
Qed.

(** ** Tenant resolution and the tenant registry *)

Lemma resolve_from req t :
  resolveTenantFromReq req = Some t -> exists u, t = Js.trim u /\ t <> "".
Proof.
  unfold resolveTenantFromReq.
  set (q := Js.trim (Js.or_else (query req !! "t") "")).
  set (c := Js.trim (Js.or_else _ "")).
  unfold Js.or_, Js.or_null at 1.
  destruct (Js.truthy q) eqn:Eq; rewrite ?Eq.
  - intros [= <-]. apply truthy_spec in Eq. by eexists.
  - intros [[= <-] Hc]%or_null_some. by eexists.
Qed.

(** X1.  A tenant name that [resolveTenantFromReq] returns is not empty and
    is already trimmed.  So the name passes the empty-name check of
    [getTenantDb] (the "Missing tenant" error) unchanged, and whenever
    [getTenantDb] opens a store for it, it does so under that very name. *)
Theorem resolved_tenant_opens req t :
  resolveTenantFromReq req = Some t ->
  t <> "" /\ Js.trim t = t /\
  Js.trim (Js.or_else (Some t) "") = t /\ Js.truthy t = true /\
  forall w safe db w1, getTenantDb w (Some t) = Handle safe db w1 -> safe = t.
Proof.
  intros (u & -> & Hne)%resolve_from.
  assert (Js.truthy (Js.trim u) = true) as E by (by apply truthy_spec).
  assert (Js.trim (Js.or_else (Some (Js.trim u)) "") = Js.trim u) as Hkey.
  { unfold Js.or_else. rewrite E. apply trim_idem. }
  split; [done|]. split; [apply trim_idem|]. split; [exact Hkey|]. split; [exact E|].
  intros w safe db w1. unfold getTenantDb. rewrite Hkey, E. simpl.
  destruct (tenants w !! Js.trim u) as [[s|m]|]; [by intros [= <- _ _] | done |].
  by intros [= <- _ _].
Qed.

Lemma resolved_tenant_opens_witness :
  Js.trim (Js.or_else (Some "acme") "") = "acme" /\
  forall safe db w1,
    getTenantDb demo_world (Some "acme") = Handle safe db w1 -> safe = "acme".
Proof.
  destruct (resolved_tenant_opens (mkRequest (list_to_map [("t", " acme ")]) ∅) "acme")
    as (_ & _ & Hkey & _ & Hopen).
  - vm_compute. reflexivity.
  - split; [exact Hkey | exact (Hopen demo_world)].
Defined.

(** X2.  Precedence in [resolveTenantFromReq]: a [?t=] parameter that is not
    blank wins over every cookie.  Without one, a non-empty [tenant] cookie
    decides alone: when it is blank no tenant is resolved, even if an
    [adminUser] cookie is present.  The [adminUser] cookie counts only when
    the [tenant] cookie is absent or empty. *)
Theorem resolve_precedence req :
  let q := Js.or_else (query req !! "t") "" in
  (Js.blank q = false -> resolveTenantFromReq req = Some (Js.trim q)) /\
  (Js.blank q = true ->
   forall c, cookies req !! "tenant" = Some c -> c <> "" ->
     resolveTenantFromReq req = if Js.blank c then None else Some (Js.trim c)) /\
  (Js.blank q = true ->
   Js.or_null (cookies req !! "tenant") = None ->
   resolveTenantFromReq req =
     match cookies req !! "adminUser" with
     | Some a => if Js.blank a then None else Some (Js.trim a)
     | None => None
     end).
Proof.
  intros q.
  assert (forall s, Js.or_null (Some (Js.trim s))
                    = if Js.blank s then None else Some (Js.trim s)) as Hnull.
  { intros s. unfold Js.or_null. destruct (Js.blank s) eqn:E.
    - apply trim_empty in E. by rewrite E.
    - destruct (Js.truthy (Js.trim s)) eqn:Et; [done|].
      assert (Js.trim s = "") as Hs.
      { destruct (decide (Js.trim s = "")) as [|Hn]; [done|].
        apply truthy_spec in Hn. congruence. }
      apply trim_empty in Hs. congruence. }
  unfold resolveTenantFromReq. fold q. rewrite !Hnull.
  split; [|split].
  - intros Hq. rewrite Hq. unfold Js.or_.
    destruct (Js.truthy (Js.trim q)) eqn:Et; [done|].
    assert (Js.trim q = "") as Hs.
    { destruct (decide (Js.trim q = "")) as [|Hn]; [done|].
      apply truthy_spec in Hn. congruence. }
    apply trim_empty in Hs. congruence.
  - intros -> c Hc Hne. simpl. rewrite Hc. unfold Js.or_, Js.or_else.
    apply truthy_spec in Hne. by rewrite !Hne.
  - intros -> Hnone. simpl.
    assert (Js.or_ (cookies req !! "tenant") (cookies req !! "adminUser")
            = cookies req !! "adminUser") as ->.
    { unfold Js.or_, Js.or_null in *. destruct (cookies req !! "tenant") as [c|]; [|done].
      by destruct (Js.truthy c). }
    destruct (cookies req !! "adminUser") as [a|]; simpl; [|done].
    unfold Js.or_else. destruct (Js.truthy a) eqn:Ea; [done|].
    assert (a = "") as ->.
    { destruct (decide (a = "")) as [|Hn]; [done|]. apply truthy_spec in Hn. congruence. }
    done.
Qed.

(** X3.  The registry hands out one store per name: once [getTenantDb] has
    opened a name, opening the name again returns the same store and changes
    nothing, and what a handler commits under the name is what the next
    request opens. *)
Theorem tenant_registry w tenant safe db w1 :
  getTenantDb w tenant = Handle safe db w1 ->
  getTenantDb w1 tenant = Handle safe db w1 /\
  (forall db', getTenantDb (commit safe db' w1) tenant
               = Handle safe db' (commit safe db' w1)).
Proof.
  unfold getTenantDb. destruct (negb _); [done|].
  set (key := Js.trim (Js.or_else tenant "")).
  destruct (tenants w !! key) as [[s|m]|] eqn:E; [| done |].
  - intros [= <- <- <-]. split; [by rewrite E|].
    intros db'. unfold commit; simpl. by rewrite lookup_insert_eq.
  - intros [= <- <- <-]. unfold commit; simpl. rewrite lookup_insert_eq.
    split; [done|].
    intros db'. by rewrite lookup_insert_eq.
Qed.

Lemma tenant_registry_witness :
  getTenantDb demo_world (Some " acme") = Handle "acme" demo_db demo_world /\
  getTenantDb (commit "acme" demo_answered demo_world) (Some " acme")
  = Handle "acme" demo_answered (commit "acme" demo_answered demo_world).
Proof.
  destruct (tenant_registry demo_world (Some " acme") "acme" demo_db demo_world)
    as [Hagain Hcommit].
  - vm_compute. reflexivity.
  - split; [exact Hagain | exact (Hcommit demo_answered)].
Defined.

(** ** Joining *)

(** X5.  [/join.html] lets a device in exactly when the team exists and, if
    the link names an event, the event exists and lists the team.  It then
    sets the cookies, appends one join entry to the log and redirects to the
    joined page; the other collections are not touched, so joining twice
    adds two log entries and nothing else.  In every other case it sets no
    cookie and leaves the store as it is. *)
Theorem join_outcome env tenant req db :
  (forall teamId, admitted req db teamId ->
     join_db env tenant req db =
       (join_cookies tenant req teamId, Redirect "/joined.html",
        set_logs db (logs db ++
          [LogJoin (uuidv4 env 0) teamId (Js.or_null (query req !! "eventId"))
                   (now env 0)]))) /\
  ((forall teamId, ~ admitted req db teamId) ->
     exists res, join_db env tenant req db = ([], res, db)
                 /\ res <> Redirect "/joined.html").
Proof.
  unfold admitted, join_db, join_cookies, Lodash.find_id. split.
  - intros teamId (-> & [t Ht] & Hev). unfold Lodash.find in Ht. rewrite Ht.
    destruct (Js.or_null (query req !! "eventId")) as [eid|]; [|done].
    destruct Hev as (ev & -> & Hin). unfold Lodash.includes.
    by rewrite bool_decide_eq_true_2.
  - intros Hno. destruct (query req !! "teamId") as [teamId|]; [|by eexists].
    specialize (Hno teamId).
    destruct (List.find (team_is teamId) (teams db)) as [t|] eqn:Ht; [|by eexists].
    destruct (Js.or_null (query req !! "eventId")) as [eid|].
    + destruct (Lodash.find (event_is eid) (events db)) as [ev|] eqn:Hev; [|by eexists].
      unfold Lodash.includes. case_bool_decide as Hin; simpl; [|by eexists].
      exfalso. apply Hno. unfold Lodash.find. rewrite Ht. eauto.
    + exfalso. apply Hno. unfold Lodash.find. rewrite Ht. eauto.
Qed.

Lemma join_outcome_witness :
  join_db demo_env "acme"
    (mkRequest (list_to_map [("teamId", "X"); ("eventId", "E")]) ∅) demo_db
  = ([("eventId", "E"); ("tenant", "acme"); ("teamId", "X")],
     Redirect "/joined.html",
     set_logs demo_db [LogJoin "id-0" "X" (Some "E") 0]).
Proof.
  refine (eq_trans (proj1 (join_outcome demo_env "acme"
            (mkRequest (list_to_map [("teamId", "X"); ("eventId", "E")]) ∅) demo_db)
            "X" _) _).
  - unfold admitted. split; [vm_compute; reflexivity|].
    split; [vm_compute; by eexists|].
    change (Js.or_null _) with (Some "E"). exists demo_event.
    split; [reflexivity | apply list_elem_of_here].
  - vm_compute. reflexivity.
Defined.

(** X6.  A session that [/join.html] has set up is good for the other player
    routes on the store the join leaves behind: [/api/score] finds the team,
    and a scan carrying the team and event of the join is never turned away
    as "invalid event" or "team not in event". *)
Theorem joined_session env tenant req db teamId :
  admitted req db teamId ->
  let db' := (join_db env tenant req db).2 in
  is_Some (team_score db' teamId) /\
  forall taskId,
    event_gate db' (Js.or_null (query req !! "eventId")) teamId taskId = None \/
    event_gate db' (Js.or_null (query req !! "eventId")) teamId taskId
      = Some (Redirect "/joined.html?notinEvent=true").
Proof.
  intros Hadm db'.
  assert (teams db' = teams db /\ events db' = events db) as [Ht He].
  { subst db'. unfold join_db. destruct (Lodash.find_id _ _ _) as [[? ?]|]; [|done].
    destruct (Js.or_null _); [|done].
    destruct (Lodash.find _ _); [|done]. by destruct (negb _). }
  destruct Hadm as (_ & [t Hfind] & Hev). split.
  - unfold team_score. rewrite Ht, Hfind. by eexists.
  - intros taskId. unfold event_gate. rewrite He.
    destruct (Js.or_null (query req !! "eventId")) as [eid|]; [|by left].
    destruct Hev as (ev & -> & Hin). unfold Lodash.includes.
    rewrite (bool_decide_eq_true_2 (teamId ∈ teamIds ev)) by done.
    case_bool_decide; simpl; [by left | by right].
Qed.

Lemma joined_session_witness :
  is_Some (team_score
    (join_db demo_env "acme"
       (mkRequest (list_to_map [("teamId", "X"); ("eventId", "E")]) ∅) demo_db).2 "X").
Proof.
  refine (proj1 (joined_session demo_env "acme"
            (mkRequest (list_to_map [("teamId", "X"); ("eventId", "E")]) ∅)
            demo_db "X" _)).
  unfold admitted. split; [vm_compute; reflexivity|].
  split; [vm_compute; by eexists|].
  change (Js.or_null _) with (Some "E"). exists demo_event.
  split; [reflexivity | apply list_elem_of_here].
Defined.

(** ** More on scanning *)

Lemma find_app {A} (p : A -> bool) (l1 l2 : list A) :
  Lodash.find p (l1 ++ l2)
  = match Lodash.find p l1 with Some x => Some x | None => Lodash.find p l2 end.
Proof.
  unfold Lodash.find. induction l1 as [|x l1 IH]; simpl; [done|].
  by destruct (p x).
Qed.

Lemma index_spec {A} (arr : list A) i x :
  Js.index arr i = Some x <->
  0 <= i < Z.of_nat (length arr) /\ arr !! Z.to_nat i = Some x.
Proof.
  unfold Js.index. destruct (Z.leb_spec 0 i) as [Hi|Hi].
  - split; [|by intros [_ ?]]. intros Hx. split; [|done].
    apply lookup_lt_Some in Hx. lia.
  - split; [done | lia].
Qed.

(** X7.  The option index of a scan is valid exactly when it parses to an
    integer within [0 .. options.length - 1].  A scan that passes the
    earlier checks with an index that does not parse, is negative or is too
    large is answered 400 "Ugyldig svar" and changes nothing: no record, no
    score, no log entry. *)
Theorem scan_bad_option env req db teamId taskId task :
  Js.or_null (cookies req !! "teamId") = Some teamId ->
  Lodash.find_id task_is (tasks db) (query req !! "taskId") = Some (taskId, task) ->
  event_gate db (Js.or_null (cookies req !! "eventId")) teamId taskId = None ->
  Lodash.find (answer_of teamId taskId) (records db) = None ->
  (Js.parseInt (query req !! "optionIndex") = None \/
   exists idx, Js.parseInt (query req !! "optionIndex") = Some idx /\
               (idx < 0 \/ Z.of_nat (length (options task)) <= idx)) ->
  scan_db env req db = (Send 400 "Ugyldig svar", db).
Proof.
  intros Hteam Htask Hgate Hrec Hbad. unfold scan_db.
  rewrite Hteam, Htask, Hgate, Hrec.
  destruct Hbad as [-> | (idx & -> & Hidx)]; [done|].
  destruct (Js.index (options task) idx) as [opt|] eqn:E; [|done].
  apply index_spec in E. lia.
Qed.

Lemma scan_bad_option_witness :
  scan_db demo_env (demo_scan [("teamId", "X")] "T" "-1") demo_db
  = (Send 400 "Ugyldig svar", demo_db).
Proof.
  refine (scan_bad_option demo_env (demo_scan [("teamId", "X")] "T" "-1") demo_db
            "X" "T" demo_task _ _ _ _ _).
  - vm_compute. reflexivity.
  - vm_compute. reflexivity.
  - vm_compute. reflexivity.
  - vm_compute. reflexivity.
  - right. exists (-1). split; [vm_compute; reflexivity | lia].
Defined.

(** ** What each call does to tasks, events and records *)

Lemma join_db_frame env tenant req db :
  exists l, (join_db env tenant req db).2 = set_logs db l.
Proof.
  unfold join_db. destruct (Lodash.find_id _ _ _) as [[teamId t]|];
    [|exists (logs db); by destruct db].
  destruct (Js.or_null _); [|by eexists].
  destruct (Lodash.find _ _); [|exists (logs db); by destruct db].
  destruct (negb _); [exists (logs db); by destruct db | by eexists].
Qed.

Lemma effect_frame c w db :
  (tasks (effect c w db) = tasks db /\ events (effect c w db) = events db /\
   records (effect c w db) `sublist_of` records db) \/
  (exists env req teamId taskId task idx opt,
     accepted req db teamId taskId task idx opt /\
     effect c w db = scored env req db teamId taskId idx opt) \/
  (exists t, tasks (effect c w db) = tasks db ++ [t] /\
     events (effect c w db) = events db /\ records (effect c w db) = records db) \/
  (exists id, tasks (effect c w db) = Lodash.remove (task_is id) (tasks db) /\
     records (effect c w db) = Lodash.remove (of_task id) (records db) /\
     events (effect c w db) = events db) \/
  (exists e, events (effect c w db) = events db ++ [e] /\
     tasks (effect c w db) = tasks db /\ records (effect c w db) = records db) \/
  (exists ev ts ks, Lodash.find (event_is (event_id ev)) (events db) = Some ev /\
     events (effect c w db)
       = Lodash.modify (event_is (event_id ev)) (fun _ => appended ev ts ks) (events db) /\
     tasks (effect c w db) = tasks db /\ records (effect c w db) = records db).
Proof.
  destruct c; simpl; try by left.
  - left. destruct (join_db_frame env (default "" (resolveTenantFromReq req)) req db)
      as [l ->]. done.
  - destruct (scan_db_cases env req db) as [[-> _]|Hacc]; [by left|]. right. left.
    destruct Hacc as (teamId & taskId & task & idx & opt & Hacc).
    exists env, req, teamId, taskId, task, idx, opt. split; [done|].
    by rewrite (scan_db_accepted env _ _ _ _ _ _ _ Hacc).
  - right. right. left. by eexists.
  - right. right. right. left. by exists id.
  - left. unfold createTeams. by rewrite createTeams_loop_spec.
  - left. repeat split; simpl; [done..|apply sublist_nil_l].
  - unfold createEvent. destruct (Js.or_null name); [|by left].
    do 4 right. left. by eexists.
  - left. unfold getEvent. by destruct (Lodash.find _ _).
  - unfold appendEvent. destruct (Lodash.find (event_is id) (events db)) as [ev|] eqn:E;
      [|by left].
    do 5 right. exists ev, addTeams, addTasks.
    destruct (find_some_elem _ _ _ E) as [_ Hid%event_is_same]. by subst id.
  - left. repeat split; simpl; [done..|apply sublist_nil_l].
  - left. by destruct teamId.
Qed.

Lemma step_invariant (I : Store -> Prop) :
  I defaults -> (forall c w db, I db -> I (effect c w db)) ->
  forall w w', rtc step w w' -> everywhere I w -> everywhere I w'.
Proof.
  intros Hdef Hkeep w w' Hrun. induction Hrun as [|w1 w2 w3 Hstep _ IH]; [done|].
  intros Hw. apply IH. unfold everywhere.
  destruct Hstep as [c w | name safe db w1 us w Hopen | us w].
  - apply (touches_invariant I (effect c w) w _ (serve_touches c w) Hdef);
      [intros safe; apply Hkeep | exact Hw].
  - apply getTenantDb_handle in Hopen as (-> & Hok & -> & _). simpl.
    intros tenant db. destruct (decide (safe = tenant)) as [->|Hne].
    + rewrite lookup_insert_eq. intros [= <-]. unfold open_store.
      destruct (tenants w !! tenant) as [[s0|]|] eqn:E; [by eapply Hw | done | done].
    + rewrite lookup_insert_ne by done. apply Hw.
  - exact Hw.
Qed.

Lemma find_push_keep {A} (p : A -> bool) l x y :
  Lodash.find p l = Some y -> Lodash.find p (l ++ [x]) = Some y.
Proof. intros H. by rewrite find_app, H. Qed.

Lemma find_remove_other {A} (p q : A -> bool) l :
  (forall x, p x = true -> q x = false) ->
  Lodash.find q (Lodash.remove p l) = Lodash.find q l.
Proof.
  intros Hpq. unfold Lodash.find, Lodash.remove.
  induction l as [|x l IH]; simpl; [done|].
  destruct (p x) eqn:E; simpl.
  - by rewrite (Hpq _ E).
  - by destruct (q x).
Qed.

Lemma effect_records_sound c w db : records_sound db -> records_sound (effect c w db).
Proof.
  intros Hs r.
  destruct (effect_frame c w db)
    as [(Ht & _ & Hsub)
       | [(env & req & teamId & taskId & task & idx & opt & Hacc & ->)
       | [(t & Ht & _ & Hr)
       | [(id & Ht & Hr & _)
       | [(e & _ & Ht & Hr)
       | (ev & ts & ks & _ & _ & Ht & Hr)]]]]]; unfold record_sound.
  - intros Hin. rewrite Ht. apply Hs. by eapply elem_of_sublist.
  - unfold scored; simpl.
    intros [Hin | ->%list_elem_of_singleton]%elem_of_app; [by apply Hs|]. simpl.
    destruct Hacc as (_ & Htask & _ & _ & _ & Hopt).
    unfold Lodash.find_id in Htask. destruct (query req !! "taskId"); [|done].
    destruct (List.find _ _) as [task'|] eqn:E; [|done].
    injection Htask as <- <-. by exists task', opt.
  - rewrite Hr, Ht. intros (task & opt & Hf & Ho)%Hs.
    exists task, opt. split; [by apply find_push_keep | done].
  - rewrite Hr, Ht. intros [Hin Hk]%elem_of_remove.
    destruct (Hs r Hin) as (task & opt & Hf & Ho). exists task, opt.
    split; [|done]. rewrite find_remove_other; [done|].
    intros t Ht'. unfold task_is, of_task in *.
    apply bool_decide_eq_true in Ht'. apply bool_decide_eq_false in Hk.
    apply bool_decide_eq_false. congruence.
  - rewrite Hr, Ht. apply Hs.
  - rewrite Hr, Ht. apply Hs.
Qed.

(** X9.  Records never dangle.  From a state in which every record refers to
    an existing task, to an option of that task by its index, and carries
    that option's points, every run of the server leads to such a state:
    scans store what they looked up, and deleting a task deletes its
    records. *)
Theorem records_refer_to_tasks w w' :
  rtc step w w' -> everywhere records_sound w -> everywhere records_sound w'.
Proof.
  apply step_invariant; [by intros r ?%elem_of_nil | apply effect_records_sound].
Qed.

Lemma records_refer_to_tasks_witness :
  everywhere records_sound
    (scan demo_env (demo_scan [("teamId", "X")] "T" "0") demo_world).2.
Proof.
  refine (records_refer_to_tasks demo_world _
            (rtc_once _ _ (step_serve
               (CScan demo_env (demo_scan [("teamId", "X")] "T" "0")) demo_world)) _).
  intros tenant db Hlook.
  change (tenants demo_world) with ({[ "acme" := Db demo_db ]} : gmap string TenantFile)
    in Hlook.
  apply lookup_singleton_Some in Hlook as [_ [= <-]].
  by intros r ?%elem_of_nil.
Defined.

Lemma find_modify_disjoint {A} (p q : A -> bool) f l :
  (forall x, p x = true -> q x = false /\ q (f x) = false) ->
  Lodash.find q (Lodash.modify p f l) = Lodash.find q l.
Proof.
  intros Hpq. unfold Lodash.find. induction l as [|x l IH]; simpl; [done|].
  destruct (p x) eqn:E; simpl.
  - destruct (Hpq _ E) as [-> ->]. done.
  - by destruct (q x).
Qed.

Lemma effect_records_in_events c w db :
  records_in_events db -> records_in_events (effect c w db).
Proof.
  intros Hs r.
  destruct (effect_frame c w db)
    as [(_ & He & Hsub)
       | [(env & req & teamId & taskId & task & idx & opt & Hacc & ->)
       | [(t & _ & He & Hr)
       | [(id & _ & Hr & He)
       | [(e & He & _ & Hr)
       | (ev & ts & ks & Hev & He & _ & Hr)]]]]]; unfold record_in_event.
  - intros Hin. rewrite He. apply Hs. by eapply elem_of_sublist.
  - unfold scored; simpl.
    intros [Hin | ->%list_elem_of_singleton]%elem_of_app; [by apply Hs|]. simpl.
    destruct Hacc as (_ & _ & Hgate & _). intros eid Heid. rewrite Heid in Hgate.
    unfold event_gate, Lodash.includes in Hgate.
    destruct (Lodash.find (event_is eid) (events db)) as [ev|]; [|done].
    exists ev. split; [done|].
    case_bool_decide; [|done]. case_bool_decide; done.
  - rewrite Hr, He. apply Hs.
  - rewrite Hr, He. intros [Hin _]%elem_of_remove. by apply Hs.
  - rewrite Hr, He. intros Hin eid Heid.
    destruct (Hs r Hin eid Heid) as (ev & Hf & Hin'). exists ev.
    split; [by apply find_push_keep | done].
  - rewrite Hr, He. intros Hin eid Heid.
    destruct (Hs r Hin eid Heid) as (ev' & Hf & Hk & Ht).
    destruct (decide (eid = event_id ev)) as [->|Hne].
    + rewrite Hev in Hf. injection Hf as <-. exists (appended ev ts ks).
      split.
      * rewrite find_modify_same, Hev; [done|]. intros x _.
        by apply bool_decide_eq_true_2.
      * unfold appended; simpl. rewrite !elem_of_uniq, !elem_of_app. tauto.
    + exists ev'. split; [|done]. rewrite <- Hf. apply find_modify_disjoint.
      intros x Hx%event_is_same. unfold event_is; simpl.
      split; apply bool_decide_eq_false_2; congruence.
Qed.

(** ** Answers are final *)

Lemma effect_keeps_task c w db taskId task :
  forgets taskId c = false ->
  Lodash.find (task_is taskId) (tasks db) = Some task ->
  Lodash.find (task_is taskId) (tasks (effect c w db)) = Some task.
Proof.
  intros Hc Hf. destruct c; simpl in Hc |- *; try done.
  - destruct (join_db_frame env (default "" (resolveTenantFromReq req)) req db)
      as [l ->]. done.
  - destruct (scan_db_cases env req db) as [[-> _]|Hacc]; [done|].
    destruct Hacc as (teamId' & taskId' & task' & idx & opt & Hacc).
    by rewrite (scan_db_accepted env _ _ _ _ _ _ _ Hacc).
  - by apply find_push_keep.
  - rewrite find_remove_other; [done|].
    intros t Ht%bool_decide_eq_true. apply bool_decide_eq_false in Hc.
    apply bool_decide_eq_false. congruence.
  - unfold createTeams. by rewrite createTeams_loop_spec.
  - unfold createEvent. by destruct (Js.or_null name).
  - unfold getEvent. by destruct (Lodash.find (event_is id) (events db)).
  - unfold appendEvent. by destruct (Lodash.find (event_is id) (events db)).
  - by destruct teamId.
Qed.

Lemma effect_keeps_record c w db taskId r :
  forgets taskId c = false ->
  r ∈ records db -> rec_taskId r = taskId -> r ∈ records (effect c w db).
Proof.
  intros Hc Hr Hk. destruct c; simpl in Hc |- *; try done.
  - destruct (join_db_frame env (default "" (resolveTenantFromReq req)) req db)
      as [l ->]. done.
  - destruct (scan_db_cases env req db) as [[-> _]|Hacc]; [done|].
    destruct Hacc as (teamId' & taskId' & task' & idx & opt & Hacc).
    rewrite (scan_db_accepted env _ _ _ _ _ _ _ Hacc). simpl.
    apply elem_of_app. by left.
  - apply elem_of_remove. split; [done|]. apply bool_decide_eq_false in Hc.
    apply bool_decide_eq_false. congruence.
  - unfold createTeams. by rewrite createTeams_loop_spec.
  - unfold createEvent. by destruct (Js.or_null name).
  - unfold getEvent. by destruct (Lodash.find _ _).
  - unfold appendEvent. by destruct (Lodash.find (event_is id) (events db)).
  - by destruct teamId.
Qed.

(** Events are never deleted and their lists only grow, so a request that
    has passed the event checks passes them again later. *)
Lemma effect_keeps_gate c w db eventId teamId taskId :
  event_gate db eventId teamId taskId = None ->
  event_gate (effect c w db) eventId teamId taskId = None.
Proof.
  destruct eventId as [eid|]; [|done]. unfold event_gate, Lodash.includes.
  destruct (Lodash.find (event_is eid) (events db)) as [ev|] eqn:Hf; [|done].
  case_bool_decide as Hk; [|done]. case_bool_decide as Ht; [|done]. intros _.
  assert (exists ev', Lodash.find (event_is eid) (events (effect c w db)) = Some ev' /\
                      taskId ∈ taskIds ev' /\ teamId ∈ teamIds ev') as (ev' & -> & Hk' & Ht').
  { destruct (effect_frame c w db)
      as [(_ & He & _)
         | [(env & req & teamId' & taskId' & task' & idx & opt & _ & ->)
         | [(t & _ & He & _)
         | [(id & _ & _ & He)
         | [(e & He & _ & _)
         | (ev0 & ts & ks & Hev & He & _ & _)]]]]];
      try (rewrite He; by exists ev).
    - by exists ev.
    - rewrite He. exists ev. split; [by apply find_push_keep | done].
    - rewrite He. destruct (decide (eid = event_id ev0)) as [->|Hne].
      + rewrite Hev in Hf. injection Hf as ->. exists (appended ev ts ks).
        split.
        * rewrite find_modify_same, Hev; [done|]. intros x _.
          by apply bool_decide_eq_true_2.
        * unfold appended; simpl. rewrite !elem_of_uniq, !elem_of_app. tauto.
      + exists ev. split; [|done]. rewrite <- Hf. apply find_modify_disjoint.
        intros x Hx%event_is_same. unfold event_is; simpl.
        split; apply bool_decide_eq_false_2; congruence. }
  by rewrite !bool_decide_eq_true_2.
Qed.

Lemma kept_answered taskId db db' :
  kept taskId db db' ->
  forall teamId eventId task r,
    Lodash.find (task_is taskId) (tasks db) = Some task ->
    event_gate db eventId teamId taskId = None ->
    r ∈ records db -> rec_teamId r = teamId -> rec_taskId r = taskId ->
    Lodash.find (task_is taskId) (tasks db') = Some task /\
    event_gate db' eventId teamId taskId = None /\ r ∈ records db'.
Proof.
  induction 1 as [db|c w db db' Hc _ IH]; intros teamId eventId task r Hf Hg Hr Ht Hk;
    [done|].
  apply IH; [by apply effect_keeps_task | by apply effect_keeps_gate
            | by eapply effect_keeps_record | done | done].
Qed.

(** X8.  Answering is final.  After a scan that awarded points, and for as
    long as the store is changed only by handlers other than the two resets
    and the deletion of that task, every further scan of the same task by
    the same team in the same session, with whatever option, is answered
    "already answered" and changes nothing. *)
Theorem scan_once env req db teamId taskId task idx opt db' env' req' :
  accepted req db teamId taskId task idx opt ->
  kept taskId (scan_db env req db).2 db' ->
  cookies req' !! "teamId" = cookies req !! "teamId" ->
  cookies req' !! "eventId" = cookies req !! "eventId" ->
  query req' !! "taskId" = query req !! "taskId" ->
  scan_db env' req' db' = (Redirect "/joined.html?already=true", db').
Proof.
  intros Hacc Hkept Ht He Hk.
  rewrite (scan_db_accepted env _ _ _ _ _ _ _ Hacc) in Hkept. simpl in Hkept.
  destruct Hacc as (Hteam & Htask & Hgate & Hrec & _).
  assert (query req !! "taskId" = Some taskId /\
          Lodash.find (task_is taskId) (tasks db) = Some task) as [Hq Hfind].
  { unfold Lodash.find_id in Htask. destruct (query req !! "taskId") as [q|]; [|done].
    destruct (List.find (task_is q) (tasks db)) as [t|] eqn:E; [|done].
    by injection Htask as -> ->. }
  destruct (kept_answered _ _ _ Hkept teamId (Js.or_null (cookies req !! "eventId")) task
              (mkAnswer (uuidv4 env 0) teamId taskId idx (points opt)
                        (Js.or_null (cookies req !! "eventId")) (now env 0)))
    as (Hfind' & Hgate' & Hin); [done | done | | done | done |].
  { unfold scored; simpl. apply elem_of_app. right. apply list_elem_of_here. }
  unfold scan_db, Lodash.find_id. rewrite Ht, He, Hk, Hteam, Hq.
  unfold Lodash.find in Hfind'. rewrite Hfind', Hgate'.
  destruct (find_is_some (answer_of teamId taskId) (records db') _ Hin) as [r' ->];
    [|done].
  unfold answer_of; simpl. by rewrite !bool_decide_eq_true_2.
Qed.

Lemma scan_once_witness :
  scan_db demo_env (demo_scan [("teamId", "X")] "T" "1")
    (createTask demo_env "Late" []
       (scan_db demo_env (demo_scan [("teamId", "X")] "T" "0") demo_db).2).2
  = (Redirect "/joined.html?already=true",
     (createTask demo_env "Late" []
        (scan_db demo_env (demo_scan [("teamId", "X")] "T" "0") demo_db).2).2).
Proof.
  refine (scan_once demo_env (demo_scan [("teamId", "X")] "T" "0") demo_db
            "X" "T" demo_task 0 (mkChoice "A" 10) _ demo_env
            (demo_scan [("teamId", "X")] "T" "1") _ _ _ _ _).
  - unfold accepted. vm_compute. repeat split; reflexivity.
  - apply (kept_call "T" (CCreateTask demo_env (mkRequest ∅ ∅) "Late" []) demo_world);
      [reflexivity | apply kept_now].
  - vm_compute. reflexivity.
  - vm_compute. reflexivity.
  - vm_compute. reflexivity.
Defined.

(** X10.  A record made within an event keeps pointing into it.  From a
    state in which every record with an event id refers to an existing
    event that lists the record's task and team, every run of the server
    leads to such a state: the scan checks membership before it stores the
    record, events are never deleted and appending only adds ids. *)
Theorem records_stay_in_events w w' :
  rtc step w w' -> everywhere records_in_events w -> everywhere records_in_events w'.
Proof.
  apply step_invariant; [by intros r ?%elem_of_nil | apply effect_records_in_events].
Qed.

Lemma records_stay_in_events_witness :
  rec_eventId <$>
    records (open_store
      (scan demo_env (demo_scan [("teamId", "X"); ("eventId", "G")] "T" "0")
            demo_world_semi).2 "acme") = [Some "G"] /\
  everywhere records_in_events
    (scan demo_env (demo_scan [("teamId", "X"); ("eventId", "G")] "T" "0")
          demo_world_semi).2.
Proof.
  split; [vm_compute; reflexivity|].
  refine (records_stay_in_events demo_world_semi _
            (rtc_once _ _ (step_serve
               (CScan demo_env (demo_scan [("teamId", "X"); ("eventId", "G")] "T" "0"))
               demo_world_semi)) _).
  intros tenant db Hlook.
  change (tenants demo_world_semi)
    with ({[ "acme" := Db demo_db_semi ]} : gmap string TenantFile) in Hlook.
  apply lookup_singleton_Some in Hlook as [_ [= <-]].
  by intros r ?%elem_of_nil.
Defined.

(** ** Admin routes *)

Lemma find_user us name :
  List.find (fun u => bool_decide (username u = name)) us
  = None <-> name ∉ username <$> us.
Proof.
  induction us as [|u us IH]; simpl.
  - split; [intros _; apply not_elem_of_nil | done].
  - rewrite not_elem_of_cons. case_bool_decide as E.
    + split; [done|]. intros [Hn _]. congruence.
    + rewrite IH. split; [intros ?; split; [congruence | done] | by intros [_ ?]].
Qed.

Lemma bonus_by_find us req :
  match Lodash.find_id (fun name u => bool_decide (username u = name)) us
                       (cookies req !! "adminUser") with
  | Some (_, u) => username u
  | None => "admin"
  end = bonus_by us req.
Proof.
  unfold bonus_by, Lodash.find_id.
  destruct (cookies req !! "adminUser") as [name|]; [|done].
  destruct (List.find _ us) as [u|] eqn:E.
  - apply List.find_some in E as [Hin Hu%bool_decide_eq_true].
    rewrite bool_decide_eq_true_2; [done|].
    rewrite <- Hu. apply list_elem_of_fmap. exists u.
    split; [done | by apply list_elem_of_In].
  - apply find_user in E. by rewrite bool_decide_eq_false_2.
Qed.

Lemma or_zero_num b : in_range b -> Js.or_zero (Js.num b) = Js.num b.
Proof.
  intros Hb. rewrite (num_canon b Hb).
  destruct b as [|p|p]; simpl; [done| |]; by destruct (Js.lowest p 0).
Qed.

(** X11.  A bonus adds the amount [Number(extra) || 0] (0 when the amount is
    0 or not a number) to the score of the team and to no other, in
    JavaScript number arithmetic: the new score is the double nearest to the
    sum.  That is the sum itself when the score, the amount and the sum are
    integers of magnitude at most 2^53.  The handler appends one bonus entry
    to the log, signed with the admin's user name if the core collection
    knows it and with "admin" otherwise.  When no team has the id, the log
    entry is written all the same and no score changes. *)
Theorem bonus_award env us req teamId extra db :
  exists db',
    bonus env us req teamId extra db = (SendJson 200 JOk, db') /\
    logs db' = logs db ++
      [LogBonus (uuidv4 env 0) teamId (Js.or_zero extra) (bonus_by us req) (now env 0)] /\
    (forall id, teamId = Some id ->
       team_score db' id
       = (fun n => Js.add n (Js.or_zero extra)) <$> team_score db id) /\
    (forall id s b, teamId = Some id ->
       team_score db id = Some (Js.num s) -> extra = Js.num b ->
       in_range s -> in_range b -> in_range (s + b) ->
       team_score db' id = Some (Js.num (s + b))) /\
    (forall other, teamId <> Some other -> team_score db' other = team_score db other) /\
    (teamId = None \/ (exists id, teamId = Some id /\ team_score db id = None) ->
       teams db' = teams db) /\
    tasks db' = tasks db /\ records db' = records db /\ events db' = events db.
Proof.
  unfold bonus. eexists. split; [reflexivity|]. simpl.
  rewrite bonus_by_find.
  assert (forall id, teamId = Some id ->
            team_score
              (set_logs
                 match teamId with
                 | Some id0 => set_teams db
                     (Lodash.modify (team_is id0)
                        (set_score (fun n => Js.add n (Js.or_zero extra))) (teams db))
                 | None => db
                 end
                 (Lodash.push (LogBonus (uuidv4 env 0) teamId (Js.or_zero extra)
                                 (bonus_by us req) (now env 0))
                    (logs match teamId with
                          | Some id0 => set_teams db
                              (Lodash.modify (team_is id0)
                                 (set_score (fun n => Js.add n (Js.or_zero extra)))
                                 (teams db))
                          | None => db
                          end))) id
            = (fun n => Js.add n (Js.or_zero extra)) <$> team_score db id) as Hscore.
  { intros id ->. unfold team_score; simpl.
    rewrite find_modify_same by (intros t; by rewrite team_is_set_score).
    by destruct (Lodash.find _ _). }
  split; [by destruct teamId|].
  split; [exact Hscore|].
  split.
  { intros id s b Hid Hs -> Hrs Hrb Hrsb. rewrite (Hscore id Hid), Hs. simpl.
    by rewrite or_zero_num, add_exact. }
  split.
  { intros other Hne. unfold team_score. destruct teamId as [id|]; simpl; [|done].
    rewrite find_modify_other; [done | apply team_is_set_score |].
    intros t Ht%bool_decide_eq_true. apply bool_decide_eq_false. congruence. }
  split.
  { intros [-> | (id & -> & Hnone)]; simpl; [done|]. apply modify_none.
    unfold team_score in Hnone. by destruct (Lodash.find _ _). }
  by destruct teamId.
Qed.

(** Bonus amounts on the small tenant: half a point (the double 2^-1), one
    point on top of the score 2^53, and an amount that is not a number. *)
Example bonus_half :
  team_score (bonus demo_env [] (mkRequest ∅ ∅) (Some "X") (Js.Fin 1 (-1)) demo_db).2 "X"
  = Some (Js.Fin 1 (-1)).
Proof. vm_compute. reflexivity. Qed.

Example bonus_beyond :
  team_score (bonus demo_env [] (mkRequest ∅ ∅) (Some "X") (Js.num 1) demo_high).2 "X"
  = team_score demo_high "X".
Proof. vm_compute. reflexivity. Qed.

Example bonus_nan :
  team_score (bonus demo_env [] (mkRequest ∅ ∅) (Some "X") Js.NaN demo_answered).2 "X"
  = Some (Js.num 10).
Proof. vm_compute. reflexivity. Qed.

Lemma join_db_logs env tenant req db :
  exists l, (join_db env tenant req db).2 = set_logs db (logs db ++ l).
Proof.
  unfold join_db. destruct (Lodash.find_id _ _ _) as [[teamId t]|];
    [|exists []; rewrite app_nil_r; by destruct db].
  destruct (Js.or_null _); [|by eexists].
  destruct (Lodash.find _ _); [|exists []; rewrite app_nil_r; by destruct db].
  destruct (negb _); [exists []; rewrite app_nil_r; by destruct db | by eexists].
Qed.








(** ** Team names *)

Lemma team_label_inj : Inj (=) (=) team_label.
Proof.
  intros i j H. unfold team_label, Js.show in H.
  apply (inj (String.app _)) in H. apply (inj pretty) in H. lia.
Qed.

Lemma batch_names env k n : team_name <$> batch env k n = team_label <$> seq k n.
Proof.
  unfold batch. rewrite <- list_fmap_compose.
  replace (seq k n) with ((fun i => (k + i)%nat) <$> seq 0 n)
    by (rewrite fmap_add_seq; f_equal; lia).
  by rewrite <- list_fmap_compose.
Qed.

Lemma effect_team_names c w db :
  team_name <$> teams (effect c w db) = team_name <$> teams db \/
  teams (effect c w db) = [] \/
  exists env n, teams (effect c w db) = teams db ++ batch env (length (teams db)) n.
Proof.
  destruct c; simpl; try by left.
  - left. destruct (join_db_frame env (default "" (resolveTenantFromReq req)) req db)
      as [l ->]. done.
  - left. destruct (scan_db_cases env req db) as [[-> _]|Hacc]; [done|].
    destruct Hacc as (teamId & taskId & task & idx & opt & Hacc).
    rewrite (scan_db_accepted env _ _ _ _ _ _ _ Hacc). simpl. by apply modify_map.
  - right. right. exists env, (Z.to_nat (team_count count)).
    unfold createTeams. by rewrite createTeams_loop_spec.
  - right. by left.
  - left. unfold createEvent. by destruct (Js.or_null name).
  - left. unfold getEvent. by destruct (Lodash.find _ _).
  - left. unfold appendEvent. by destruct (Lodash.find _ _).
  - left. unfold Lodash.forEach.
    assert (forall ts cur : list Team,
      team_name <$> foldl (fun cur t => Lodash.modify (team_is (team_id t))
                                          (set_score (fun _ => 0)) cur) cur ts
      = team_name <$> cur) as H.
    { induction ts as [|t ts IH]; intros cur; simpl; [done|].
      rewrite IH. by apply modify_map. }
    apply H.
  - left. destruct teamId; simpl; [by apply modify_map | done].
Qed.

Lemma effect_teams_numbered c w db : teams_numbered db -> teams_numbered (effect c w db).
Proof.
  unfold teams_numbered. intros Hn.
  destruct (effect_team_names c w db) as [Hsame | [-> | (env & n & ->)]].
  - pose proof (f_equal length Hsame) as Hlen. rewrite !length_fmap in Hlen.
    by rewrite Hsame, Hn, Hlen.
  - done.
  - rewrite fmap_app, batch_names, Hn, length_app.
    assert (length (batch env (length (teams db)) n) = n) as ->
      by (unfold batch; by rewrite length_fmap, length_seq).
    by rewrite seq_app, fmap_app.
Qed.

(** X13.  Team names stay in step with the team count.  From a state in
    which the teams of every tenant are named "Hold 1", "Hold 2", ... in
    order, every run of the server leads to such a state; in particular no
    two teams of a tenant share a name.  (Teams are only ever added at the
    end or removed all together.) *)
Theorem team_names_sequential w w' :
  rtc step w w' -> everywhere teams_numbered w ->
  everywhere (fun db => teams_numbered db /\ NoDup (team_name <$> teams db)) w'.
Proof.
  intros Hrun Hw tenant db Hlook.
  assert (teams_numbered db) as Hn.
  { revert tenant db Hlook. fold (everywhere teams_numbered w').
    revert Hrun Hw. apply step_invariant; [done | apply effect_teams_numbered]. }
  split; [done|]. rewrite Hn.
  pose proof team_label_inj as Hinj. apply NoDup_fmap_2; [exact Hinj | apply NoDup_seq].
Qed.

Lemma team_names_sequential_witness :
  everywhere (fun db => teams_numbered db /\ NoDup (team_name <$> teams db))
    (serve (CCreateTeams demo_env
              (mkRequest ∅ (list_to_map [("admin", "true"); ("tenant", "acme")]))
              (Some "2")) demo_world).2.
Proof.
  refine (team_names_sequential demo_world _ (rtc_once _ _ (step_serve _ demo_world)) _).
  intros tenant db Hlook.
  change (tenants demo_world) with ({[ "acme" := Db demo_db ]} : gmap string TenantFile)
    in Hlook.
  apply lookup_singleton_Some in Hlook as [_ [= <-]]. reflexivity.
Defined.

(** ** Tasks and events by id *)

(** X14.  A created task can be fetched under the id it was given, unless
    an older task already carries that id: [find({ id })] then keeps
    answering with the older one.  Every other id resolves as before. *)
Theorem create_task_lookup env title opts db :
  let id := uuidv4 env 0 in
  let db' := (createTask env title opts db).2 in
  (createTask env title opts db).1 = SendJson 200 (JId id) /\
  Lodash.find (task_is id) (tasks db')
    = match Lodash.find (task_is id) (tasks db) with
      | Some old => Some old
      | None => Some (mkTask id title opts)
      end /\
  (forall other, other <> id ->
     Lodash.find (task_is other) (tasks db') = Lodash.find (task_is other) (tasks db)) /\
  teams db' = teams db /\ records db' = records db /\
  events db' = events db /\ logs db' = logs db.
Proof.
  intros id db'. subst db'. unfold createTask, Lodash.push; simpl. fold id.
  split; [done|]. split; [|split; [|done]].
  - rewrite find_app. destruct (Lodash.find _ (tasks db)); [done|].
    unfold Lodash.find, task_is; simpl. by rewrite bool_decide_eq_true_2.
  - intros other Hne. rewrite find_app.
    destruct (Lodash.find _ (tasks db)); [done|].
    unfold Lodash.find, task_is; simpl. by rewrite bool_decide_eq_false_2.
Qed.

Lemma find_remove_same {A} (p : A -> bool) l : Lodash.find p (Lodash.remove p l) = None.
Proof.
  unfold Lodash.find, Lodash.remove. induction l as [|x l IH]; simpl; [done|].
  destruct (p x) eqn:E; simpl; [done|]. by rewrite E.
Qed.

(** X15.  After a task has been deleted its id resolves to nothing: a scan
    of it by a team with a session is answered 400 "Ugyldig opgave" and
    changes nothing, whatever was answered before. *)
Theorem delete_task_gone taskId db env req teamId :
  Js.or_null (cookies req !! "teamId") = Some teamId ->
  query req !! "taskId" = Some taskId ->
  let db' := (deleteTask taskId db).2 in
  Lodash.find (task_is taskId) (tasks db') = None /\
  scan_db env req db' = (Send 400 "Ugyldig opgave", db').
Proof.
  intros Hteam Htask db'. subst db'. unfold deleteTask; simpl.
  assert (Lodash.find (task_is taskId) (Lodash.remove (task_is taskId) (tasks db)) = None)
    as Hgone by apply find_remove_same.
  split; [done|]. unfold scan_db, Lodash.find_id. rewrite Hteam, Htask. simpl.
  unfold Lodash.find in Hgone. by rewrite Hgone.
Qed.

Lemma delete_task_gone_witness :
  scan_db demo_env (demo_scan [("teamId", "X")] "T" "0") (deleteTask "T" demo_answered).2
  = (Send 400 "Ugyldig opgave", (deleteTask "T" demo_answered).2).
Proof.
  refine (proj2 (delete_task_gone "T" demo_answered demo_env
            (demo_scan [("teamId", "X")] "T" "0") "X" _ _)).
  - vm_compute. reflexivity.
  - vm_compute. reflexivity.
Defined.

(** X16.  Creating an event needs a name: without one (missing or empty) the
    reply is 400 and nothing is stored.  Otherwise the event is added with
    the given id lists, empty where none was sent, and can be fetched under
    its new id unless an older event already carries that id. *)
Theorem create_event_lookup env name teams_in tasks_in db :
  let id := uuidv4 env 0 in
  (Js.or_null name = None ->
   createEvent env name teams_in tasks_in db = (SendJson 400 (JError "Mangler navn"), db)) /\
  (forall n, Js.or_null name = Some n ->
   let ev := mkEvent id n (default [] teams_in) (default [] tasks_in) (now env 0) in
   let db' := (createEvent env name teams_in tasks_in db).2 in
   (createEvent env name teams_in tasks_in db).1 = SendJson 200 (JId id) /\
   events db' = events db ++ [ev] /\
   (getEvent id db').1
     = match Lodash.find (event_is id) (events db) with
       | Some old => SendJson 200 (JEvent old)
       | None => SendJson 200 (JEvent ev)
       end /\
   teams db' = teams db /\ tasks db' = tasks db /\
   records db' = records db /\ logs db' = logs db).
Proof.
  intros id. unfold createEvent. split; [by intros ->|].
  intros n ->. simpl. fold id. split; [done|]. split; [done|]. split; [|done].
  unfold getEvent, Lodash.push; simpl. rewrite find_app.
  destruct (Lodash.find _ (events db)); [done|].
  unfold Lodash.find, event_is; simpl. by rewrite bool_decide_eq_true_2.
Qed.

Lemma uniq_absorb (seen xs : list string) :
  (forall x, x ∈ xs -> x ∈ seen) ->
  foldl (fun seen x => if bool_decide (x ∈ seen) then seen else seen ++ [x]) seen xs
  = seen.
Proof.
  induction xs as [|y xs IH]; intros Hin; simpl; [done|].
  rewrite bool_decide_eq_true_2 by (apply Hin, list_elem_of_here).
  apply IH. intros x Hx. by apply Hin, list_elem_of_further.
Qed.

Lemma uniq_keep (seen xs : list string) :
  NoDup (seen ++ xs) ->
  foldl (fun seen x => if bool_decide (x ∈ seen) then seen else seen ++ [x]) seen xs
  = seen ++ xs.
Proof.
  revert seen. induction xs as [|y xs IH]; intros seen Hnd; simpl.
  - by rewrite app_nil_r.
  - pose proof Hnd as Hnd'. apply NoDup_app in Hnd' as (_ & Hdis & _).
    rewrite bool_decide_eq_false_2
      by (intros Hy; apply (Hdis y Hy), list_elem_of_here).
    rewrite IH; rewrite <- app_assoc; done.
Qed.

Lemma uniq_again (a b : list string) :
  Lodash.uniq (Lodash.uniq (a ++ b) ++ b) = Lodash.uniq (a ++ b).
Proof.
  unfold Lodash.uniq at 1. rewrite foldl_app.
  pose proof (uniq_keep [] (Lodash.uniq (a ++ b))) as Hk. simpl in Hk.
  rewrite Hk by apply uniq_NoDup.
  apply uniq_absorb. intros x Hx. apply elem_of_uniq, elem_of_app. by right.
Qed.

Lemma modify_again {A} (p : A -> bool) (y : A) l :
  p y = true ->
  Lodash.modify p (fun _ => y) (Lodash.modify p (fun _ => y) l)
  = Lodash.modify p (fun _ => y) l.
Proof.
  intros Hy. induction l as [|x l IH]; simpl; [done|].
  destruct (p x) eqn:E; simpl; [by rewrite Hy | by rewrite E, IH].
Qed.

(** X17.  Appending to an event is idempotent: sending the same ids a second
    time gives the same reply and leaves the store exactly as the first
    append left it. *)
Theorem append_event_again id addTeams addTasks db :
  appendEvent id addTeams addTasks (appendEvent id addTeams addTasks db).2
  = appendEvent id addTeams addTasks db.
Proof.
  unfold appendEvent at 2 3.
  destruct (Lodash.find (event_is id) (events db)) as [ev|] eqn:E; simpl.
  2:{ unfold appendEvent. by rewrite E. }
  destruct (find_some_elem _ _ _ E) as [_ Hid%event_is_same]. subst id.
  unfold appendEvent; simpl. rewrite find_modify_same, E
    by (intros x _; by apply bool_decide_eq_true_2).
  simpl. rewrite !uniq_again.
  rewrite modify_again by (by apply bool_decide_eq_true_2). done.
Qed.

(** X18.  Resetting the scores opens every task again: a scan that passes
    the session, task, event and option checks is accepted on the store the
    reset leaves, whatever had been answered before. *)
Theorem reset_reopens env req db teamId taskId task idx opt :
  Js.or_null (cookies req !! "teamId") = Some teamId ->
  Lodash.find_id task_is (tasks db) (query req !! "taskId") = Some (taskId, task) ->
  event_gate db (Js.or_null (cookies req !! "eventId")) teamId taskId = None ->
  Js.parseInt (query req !! "optionIndex") = Some idx ->
  Js.index (options task) idx = Some opt ->
  let db' := (reset db).2 in
  scan_db env req db' =
    (Redirect (points_url (points opt)), scored env req db' teamId taskId idx opt) /\
  records (scan_db env req db').2
    = [mkAnswer (uuidv4 env 0) teamId taskId idx (points opt)
                (Js.or_null (cookies req !! "eventId")) (now env 0)].
Proof.
  intros Hteam Htask Hgate Hidx Hopt db'.
  assert (accepted req db' teamId taskId task idx opt) as Hacc
    by (repeat split; done).
  rewrite (scan_db_accepted env _ _ _ _ _ _ _ Hacc). done.
Qed.

Lemma reset_reopens_witness :
  records (scan_db demo_env (demo_scan [("teamId", "X")] "T" "1") (reset demo_answered).2).2
  = [mkAnswer "id-0" "X" "T" 1 0 None 0].
Proof.
  refine (proj2 (reset_reopens demo_env (demo_scan [("teamId", "X")] "T" "1")
            demo_answered "X" "T" demo_task 1 (mkChoice "B" 0) _ _ _ _ _)).
  - vm_compute. reflexivity.
  - vm_compute. reflexivity.
  - vm_compute. reflexivity.
  - vm_compute. reflexivity.
  - vm_compute. reflexivity.
Defined.

(** ** Which tenant an admin request acts on *)

Lemma resolve_query req v :
  query req !! "t" = Some v -> Js.blank v = false ->
  resolveTenantFromReq req = Some (Js.trim v) /\ Js.trim v <> "".
Proof.
  intros Hq Hb.
  assert (Js.trim v <> "") as Hne by (intros H%trim_empty; congruence).
  assert (v <> "") as Hv by (intros ->; done).
  split; [|done]. unfold resolveTenantFromReq. rewrite Hq.
  unfold Js.or_else at 1. apply truthy_spec in Hv. rewrite Hv.
  unfold Js.or_null at 1. apply truthy_spec in Hne. rewrite Hne.
  unfold Js.or_. by rewrite Hne.
Qed.

(** X19.  The tenant an admin request works on is chosen by the request, not
    by the account: with the admin flag set, a non-blank [?t=] parameter
    makes the handler run on, and commit to, the store that [getTenantDb]
    opens for the trimmed parameter, under that very name, whatever the
    [tenant] and [adminUser] cookies say.  When [getTenantDb] throws, the
    reply is 400 with the error's message and nothing changes. *)
Theorem admin_tenant_choice handler req w v :
  adminApi req = true ->
  query req !! "t" = Some v -> Js.blank v = false ->
  admin handler req w =
    match getTenantDb w (Some (Js.trim v)) with
    | Handle safe db w1 => ((handler db).1, commit safe (handler db).2 w1)
    | Throws m => (SendJson 400 (JError (Js.or_else (Some m) "Tenant fejl")), w)
    end /\
  (forall safe db w1,
     getTenantDb w (Some (Js.trim v)) = Handle safe db w1 -> safe = Js.trim v).
Proof.
  intros Hadm Hq Hb. destruct (resolve_query req v Hq Hb) as [Hres Hne].
  split.
  - unfold admin, withTenantDb. rewrite Hadm, Hres.
    assert (Js.or_null (Js.or_ (Some (Js.trim v)) (cookies req !! "adminUser"))
            = Some (Js.trim v)) as ->.
    { unfold Js.or_, Js.or_null. apply truthy_spec in Hne. by rewrite !Hne. }
    destruct (getTenantDb w (Some (Js.trim v))) as [safe db w1|m]; [|done].
    by destruct (handler db).
  - intros safe db w1. unfold getTenantDb, Js.or_else.
    apply truthy_spec in Hne. rewrite Hne, trim_idem, Hne. simpl.
    destruct (tenants w !! Js.trim v) as [[s|m]|]; [by intros [= <- _ _] | done |].
    by intros [= <- _ _].
Qed.

Lemma admin_tenant_choice_witness :
  admin (deleteTask "T")
        (mkRequest (list_to_map [("t", "acme")])
                   (list_to_map [("admin", "true"); ("adminUser", "mallory");
                                 ("tenant", "mallory")]))
        demo_world
  = (SendJson 200 JOk, commit "acme" (deleteTask "T" demo_db).2 demo_world).
Proof.
  refine (eq_trans (proj1 (admin_tenant_choice (deleteTask "T") _ demo_world "acme"
                             _ _ _)) _).
  - vm_compute. reflexivity.
  - vm_compute. reflexivity.
  - vm_compute. reflexivity.
  - vm_compute. reflexivity.
Defined.

(** ** Accounts *)

Section Accounts.
Variable pbkdf2 : string -> string -> string.

Lemma verify_own p salt a :
  acc_salt a = salt -> acc_hash a = pbkdf2 p salt -> verifyPassword pbkdf2 p a = true.
Proof. unfold verifyPassword. intros -> ->. apply String.eqb_refl. Qed.

Lemma getTenantDb_again w tenant safe db w1 :
  getTenantDb w tenant = Handle safe db w1 -> getTenantDb w1 tenant = Handle safe db w1.
Proof.
  unfold getTenantDb. destruct (negb _); [done|].
  set (key := Js.trim (Js.or_else tenant "")).
  destruct (tenants w !! key) as [[s|]|] eqn:E; [| done |].
  - intros [= <- <- <-]. by rewrite E.
  - intros [= <- <- <-]. unfold commit; simpl. by rewrite lookup_insert_eq.
Qed.

Lemma login_ok u p a core w safe db w1 :
  Lodash.find (account_is u) core = Some a ->
  verifyPassword pbkdf2 p a = true ->
  getTenantDb w (Some u) = Handle safe db w1 ->
  login pbkdf2 (Some u) (Some p) core w
  = mkAuthResult (session_cookies u) (ARedirect "/admin.html") core w1.
Proof.
  intros Hf Hv Hg. unfold login, Lodash.find_id. unfold Lodash.find in Hf.
  by rewrite Hf, Hv, Hg.
Qed.

(** X20.  First-time setup works once.  With accounts present it answers
    400 and changes nothing.  On an empty core collection, with a user name
    and a password, it stores one owner account whose hash is that of the
    password under the salt drawn; if the tenant store of the user name
    opens it replies ok and sets the session cookies.  With a field missing
    or empty it answers 400 and stores nothing. *)
Theorem setup_once env salt username password core w :
  (core <> [] ->
   setup pbkdf2 env salt username password core w
   = mkAuthResult [] (AJson 400 (AError "Allerede konfigureret")) core w) /\
  (core = [] ->
   (Js.or_null username = None \/ Js.or_null password = None ->
    setup pbkdf2 env salt username password core w
    = mkAuthResult [] (AJson 400 (AError "Manglende felter")) core w) /\
   (forall u p, Js.or_null username = Some u -> Js.or_null password = Some p ->
    let r := setup pbkdf2 env salt username password core w in
    core_after r = [mkAccount (uuidv4 env 0) u salt (pbkdf2 p salt) Owner (now env 0)] /\
    hasUsers (core_after r) = AJson 200 (AHasUsers true) /\
    (forall safe db w1, getTenantDb w (Some u) = Handle safe db w1 ->
       r = mkAuthResult (session_cookies u) (AJson 200 AOk) (core_after r) w1))).
Proof.
  unfold setup. split.
  - intros Hne. destruct core; [done|]. reflexivity.
  - intros ->. simpl. split.
    + intros [-> | Hp]; [done|]. rewrite Hp. by destruct (Js.or_null username).
    + intros u p -> ->. simpl. destruct (getTenantDb w (Some u)) eqn:E; simpl.
      * split; [done|]. split; [done|]. by intros ? ? ? [= <- <- <-].
      * by repeat split.
Qed.

(** X21.  An account can log in with the password it was created with.
    After a setup or a master's user creation that replied ok, a login with
    the same user name and password redirects to the admin page, sets the
    three session cookies and changes neither the accounts nor the tenant
    stores. *)
Theorem login_after_creation env salt req username password role_in core w :
  let created r :=
    reply r = AJson 200 AOk ->
    exists u p, Js.or_null username = Some u /\ Js.or_null password = Some p /\
      login pbkdf2 (Some u) (Some p) (core_after r) (world_after r)
      = mkAuthResult (session_cookies u) (ARedirect "/admin.html")
                     (core_after r) (world_after r) in
  created (setup pbkdf2 env salt username password core w) /\
  created (masterCreateUser pbkdf2 env salt req username password role_in core w).
Proof.
  intros created. subst created. split.
  - unfold setup. destruct (0 <? length core)%nat eqn:Hc; [done|].
    assert (core = []) as -> by (destruct core; done).
    destruct (Js.or_null username) as [u|]; [|done].
    destruct (Js.or_null password) as [p|]; [|done]. simpl.
    destruct (getTenantDb w (Some u)) as [safe db w1|] eqn:E; [|done]. simpl.
    intros _. exists u, p. split; [done|]. split; [done|].
    eapply login_ok; [| |by eapply getTenantDb_again].
    + unfold Lodash.find, account_is; simpl. by rewrite bool_decide_eq_true_2.
    + by apply (verify_own p salt).
  - unfold masterCreateUser. destruct (masterApi req core) as [rej|] eqn:Hm.
    { simpl. intros ->. unfold masterApi in Hm. destruct (negb _); [done|].
      destruct (Lodash.find_id _ _ _) as [[? a]|]; [|done]. by destruct (acc_role a). }
    destruct (Js.or_null username) as [u|]; [|done].
    destruct (Js.or_null password) as [p|]; [|done].
    destruct (Lodash.find (account_is u) core) as [old|] eqn:Hf; [done|]. simpl.
    destruct (getTenantDb w (Some u)) as [safe db w1|] eqn:E; [|done]. simpl.
    intros _. exists u, p. split; [done|]. split; [done|].
    eapply login_ok; [| |by eapply getTenantDb_again].
    + unfold Lodash.push. rewrite find_app, Hf.
      unfold Lodash.find, account_is; simpl. by rewrite bool_decide_eq_true_2.
    + by apply (verify_own p salt).
Qed.

(** X22.  No session without the password.  When [/login] sets a cookie,
    the password given hashes, under the stored salt, to the stored hash of
    the first account with the user name given.  A login never changes the
    accounts, and a login that fails changes nothing at all. *)
Theorem login_checks_password username password core w :
  let r := login pbkdf2 username password core w in
  core_after r = core /\
  (cookie_ops r <> [] ->
   exists u p a, username = Some u /\ password = Some p /\
     Lodash.find (account_is u) core = Some a /\
     pbkdf2 p (acc_salt a) = acc_hash a /\
     cookie_ops r = session_cookies u /\ reply r = ARedirect "/admin.html") /\
  (cookie_ops r = [] -> world_after r = w).
Proof.
  intros r. subst r. unfold login, Lodash.find_id.
  destruct username as [u|]; [|done].
  destruct (List.find (account_is u) core) as [a|] eqn:Hf; [|done].
  destruct password as [p|]; [|done].
  destruct (verifyPassword pbkdf2 p a) eqn:Hv; simpl; [|done].
  destruct (getTenantDb w (Some u)) as [safe db w1|]; simpl; [|done].
  split; [done|]. split; [|done]. intros _. exists u, p, a.
  unfold verifyPassword in Hv. apply String.eqb_eq in Hv. done.
Qed.

Lemma masterApi_pass req core :
  masterApi req core = None <->
  adminApi req = true /\
  exists u a, cookies req !! "adminUser" = Some u /\
              Lodash.find (account_is u) core = Some a /\ acc_role a = Owner.
Proof.
  unfold masterApi, Lodash.find_id, Lodash.find.
  destruct (adminApi req); simpl; [|split; [done | by intros [? _]]].
  destruct (cookies req !! "adminUser") as [u|].
  - destruct (List.find (account_is u) core) as [a|] eqn:Hf.
    + destruct (acc_role a) eqn:Hr.
      * split; [|done]. intros _. split; [done|]. by exists u, a.
      * split; [done|]. intros [_ (u' & a' & [= <-] & Ha & Hr')]. congruence.
    + split; [done|]. intros [_ (u' & a' & [= <-] & Ha & _)]. congruence.
  - split; [done|]. by intros [_ (u' & a' & Hu & _)].
Qed.

(** X23.  The master routes are for owners.  [masterApi] lets a request pass
    exactly when it carries the admin flag and its [adminUser] cookie names
    an account (the first with that name) whose role is owner.  Otherwise
    creating a user is refused with 403 and changes nothing, and the user
    list is not shown. *)
Theorem master_only_owner env salt req username password role_in core w :
  (masterApi req core = None <->
   adminApi req = true /\
   exists u a, cookies req !! "adminUser" = Some u /\
               Lodash.find (account_is u) core = Some a /\ acc_role a = Owner) /\
  (masterApi req core <> None ->
   exists message,
     masterCreateUser pbkdf2 env salt req username password role_in core w
       = mkAuthResult [] (AJson 403 (AError message)) core w /\
     masterUsers req core = AJson 403 (AError message)).
Proof.
  split; [apply masterApi_pass|].
  unfold masterCreateUser, masterUsers. intros Hno.
  destruct (masterApi req core) as [rej|] eqn:Hm; [|done].
  unfold masterApi in Hm. destruct (negb _); [injection Hm as <-; by eexists|].
  destruct (Lodash.find_id _ _ _) as [[? a]|]; [|injection Hm as <-; by eexists].
  destruct (acc_role a); [done | injection Hm as <-; by eexists].
Qed.

Lemma auth_core_after c core w :
  core_after (auth pbkdf2 c core w) = core \/
  exists a, core_after (auth pbkdf2 c core w) = core ++ [a] /\
            Lodash.find (account_is (acc_name a)) core = None.
Proof.
  destruct c as [env salt uname pass | uname pass | | env salt req uname pass role_in];
    simpl.
  - unfold setup. destruct (0 <? length core)%nat eqn:Hc; [by left|].
    assert (core = []) as -> by (destruct core; done).
    destruct (Js.or_null uname) as [u|]; [|by left].
    destruct (Js.or_null pass) as [p|]; [|by left]. simpl.
    right. eexists. by destruct (getTenantDb w (Some u)).
  - left. unfold login. destruct (Lodash.find_id _ _ _) as [[u a]|]; [|done].
    destruct pass as [p|]; [|done]. destruct (negb _); [done|].
    by destruct (getTenantDb w (Some u)).
  - by left.
  - unfold masterCreateUser. destruct (masterApi req core); [by left|].
    destruct (Js.or_null uname) as [u|]; [|by left].
    destruct (Js.or_null pass) as [p|]; [|by left].
    destruct (Lodash.find (account_is u) core) as [old|] eqn:Hf; [by left|]. simpl.
    right. eexists. split; [by destruct (getTenantDb w (Some u))|]. done.
Qed.

(** X24.  Accounts are only ever added, and user names stay unique.  Every
    account route keeps the accounts there were, unchanged and in order;
    if the user names were pairwise distinct before, they are after. *)
Theorem accounts_append_only c core w :
  core `prefix_of` core_after (auth pbkdf2 c core w) /\
  (NoDup (acc_name <$> core) ->
   NoDup (acc_name <$> core_after (auth pbkdf2 c core w))).
Proof.
  destruct (auth_core_after c core w) as [-> | (a & -> & Hnew)]; [done|].
  split; [by apply prefix_app_r|]. intros Hnd.
  rewrite fmap_app. apply NoDup_app. split; [done|].
  split; [|apply NoDup_singleton].
  intros name (b & -> & Hb)%list_elem_of_fmap Hin%list_elem_of_singleton.
  apply (find_none_elem _ _ b) in Hnew; [|done].
  unfold account_is in Hnew. apply bool_decide_eq_false in Hnew. simpl in *. congruence.
Qed.

Lemma getTenantDb_with_core core w tenant safe db w1 :
  getTenantDb w tenant = Handle safe db w1 ->
  exists w2, getTenantDb (with_core core w) tenant = Handle safe db w2
             /\ tenants w2 = tenants w1.
Proof.
  unfold getTenantDb, with_core; simpl. destruct (negb _); [done|].
  destruct (tenants w !! _) as [[s|]|]; [| done |].
  - intros [= <- <- <-]. by eexists.
  - intros [= <- <- <-]. by eexists.
Qed.

Lemma auth_world_after c core w :
  world_after (auth pbkdf2 c core w) = w \/
  exists name safe db, getTenantDb w (Some name) = Handle safe db
                         (world_after (auth pbkdf2 c core w)).
Proof.
  destruct c as [env salt uname pass | uname pass | | env salt req uname pass role_in];
    simpl.
  - unfold setup. destruct (0 <? length core)%nat; [by left|].
    destruct (Js.or_null uname) as [u|]; [|by left].
    destruct (Js.or_null pass) as [p|]; [|by left]. simpl.
    destruct (getTenantDb w (Some u)) eqn:E; [right; by eexists _, _, _ | by left].
  - unfold login. destruct (Lodash.find_id _ _ _) as [[u a]|]; [|by left].
    destruct pass as [p|]; [|by left]. destruct (negb _); [by left|].
    destruct (getTenantDb w (Some u)) eqn:E; [right; by eexists _, _, _ | by left].
  - by left.
  - unfold masterCreateUser. destruct (masterApi req core); [by left|].
    destruct (Js.or_null uname) as [u|]; [|by left].
    destruct (Js.or_null pass) as [p|]; [|by left].
    destruct (Lodash.find (account_is u) core); [by left|]. simpl.
    destruct (getTenantDb w (Some u)) eqn:E; [right; by eexists _, _, _ | by left].
Qed.

(** X25.  The account routes touch the tenant stores only by making sure
    that the store of the user name exists: each of them is a step of the
    transition system of the server, so what holds of every step (one
    answer per team and task, records that refer to tasks and events,
    sequential team names) holds across setup, login, logout and user
    creation too. *)
Theorem auth_is_step c core w :
  step (with_core core w)
       (with_core (core_after (auth pbkdf2 c core w)) (world_after (auth pbkdf2 c core w)))
  /\ (forall tenant db, tenants w !! tenant = Some (Db db) ->
        tenants (world_after (auth pbkdf2 c core w)) !! tenant = Some (Db db)).
Proof.
  destruct (auth_world_after c core w) as [-> | (name & safe & db & Hopen)].
  - split; [apply (step_users _ (with_core core w)) | done].
  - split.
    + destruct (getTenantDb_with_core core _ _ _ _ _ Hopen) as (w2 & Hopen2 & Ht).
      unfold with_core at 2. rewrite <- Ht. by eapply step_auth.
    + apply getTenantDb_handle in Hopen as (-> & Hok & -> & _).
      intros tenant db' Hlook. destruct (decide (safe = tenant)) as [->|Hne].
      * rewrite lookup_insert_eq. unfold open_store. by rewrite Hlook.
      * by rewrite lookup_insert_ne.
Qed.

End Accounts.

Lemma login_after_creation_witness :
  login demo_hash (Some "alice") (Some "pw")
    (core_after (setup demo_hash demo_env "s1" (Some "alice") (Some "pw") [] demo_world))
    (world_after (setup demo_hash demo_env "s1" (Some "alice") (Some "pw") [] demo_world))
  = mkAuthResult (session_cookies "alice") (ARedirect "/admin.html")
      [mkAccount "id-0" "alice" "s1" "s1$pw" Owner 0]
      (commit "alice" defaults demo_world).
Proof.
  destruct (proj1 (login_after_creation demo_hash demo_env "s1" (mkRequest ∅ ∅)
              (Some "alice") (Some "pw") None [] demo_world))
    as (u & p & Hu & Hp & Hlogin).
  - vm_compute. reflexivity.
  - injection Hu as <-. injection Hp as <-. rewrite Hlogin. vm_compute. reflexivity.
Defined.



(** X27.  Resetting the teams removes every team and every record and keeps
    tasks, events and the log.  A player's session outlives it: the score
    lookup finds no team any more.  The next batch of teams is numbered
    from "Hold 1" again. *)
Theorem reset_teams_restart env count db :
  let db' := (resetTeams db).2 in
  teams db' = [] /\ records db' = [] /\
  tasks db' = tasks db /\ events db' = events db /\ logs db' = logs db /\
  (forall teamId, team_score db' teamId = None) /\
  teams (createTeams env count db').2 = batch env 0 (Z.to_nat (team_count count)).
Proof.
  intros db'. subst db'. unfold resetTeams; simpl.
  do 5 (split; [done|]). split; [done|].
  unfold createTeams. by rewrite createTeams_loop_spec.
Qed.
